(** * EigenKor admin panel: the authenticated data-access layer

    A shallow embedding of the panel's client-side logic, module by module:
    - [JsMap], [JsString]: the [Map] and the string functions of the
      JavaScript runtime, as far as the panel uses them;
    - [Ingestion]: the reconciliation of [app/ingestion/page.tsx]
      ([handleBulkUpload], [handleAddSymbol]);
    - [BulkUpload]: [parseSymbols] of [components/BulkUploadModal.tsx];
    - [Auth]: the token store of [lib/auth.ts];
    - [Api]: the axios instance, its request interceptor and the endpoint
      functions of [lib/api.ts];
    - [WithAuth]: the gate of [components/withAuth.tsx];
    - [ReactQuery], [UseDebounce]: the contract of the two libraries the
      hooks are written against;
    - [Hooks]: [hooks/useSymbols.ts] and [hooks/useConfig.ts];
    - [SymbolSearch]: the search state of [components/SymbolSearch.tsx]
      (the discovery page holds the same state and hooks);
    - [LoginPage], [Layout]: [handleSubmit] of the login page and
      [handleLogout] of [app/layout.tsx];
    - [BulkUploadModal], [AddSymbolModal], [IngestionPage]: the submit
      handlers of the two modals and their wiring to the page's mutation;
    - [SymbolTable]: the add button and the type colours of
      [components/SymbolTable.tsx];
    - [AuthSecure]: the cookie token store of [lib/auth-secure.ts].

    Effects are explicit: a function that reads or writes the local storage,
    sends a request or pushes a route takes the state of the client and
    returns the new one; the backend is a function from requests to
    outcomes.

    Strings are [string] (one [ascii] per character): the model covers text
    in the Basic Latin range, where a JavaScript string's code units and the
    characters of [string] coincide. *)

From Stdlib Require Import Strings.Ascii Strings.String.
From stdpp Require Import base list strings gmap.

Open Scope string_scope.
Open Scope list_scope.

(** ** Records of [lib/types.ts] *)

(** [IngestedSymbol] and [SymbolUpdate] have the same four fields. The bulk
    upload and the manual-add form build objects with [symbol] and [exchange]
    only, so the two descriptive fields may be absent at run time. *)
Record IngestedSymbol := mkSymbol {
  symbol : string;
  exchange : string;
  description : option string;
  securityType : option string
}.

Abbreviation SymbolUpdate := IngestedSymbol (only parsing).

Global Instance IngestedSymbol_eq_dec : EqDecision IngestedSymbol.
Proof. solve_decision. Defined.

(** ** The JavaScript [Map], restricted to string keys *)

Module JsMap.
Section Defs.
Context {V : Type}.

(** Entries in insertion order. *)
Definition t := list (string * V).

(** [m.set(k, v)]: an existing key keeps its place and takes the new value,
    a new key goes to the end. *)
Fixpoint set (k : string) (v : V) (m : t) : t :=
  match m with
  | [] => [(k, v)]
  | (k', v') :: m' =>
      if decide (k' = k) then (k', v) :: m' else (k', v') :: set k v m'
  end.

(** [m.get(k)] *)
Fixpoint get (k : string) (m : t) : option V :=
  match m with
  | [] => None
  | (k', v') :: m' => if decide (k' = k) then Some v' else get k m'
  end.

(** [new Map(entries)]: the entries are set one after the other. *)
Definition of_entries (es : list (string * V)) : t :=
  fold_left (fun m e => set e.1 e.2 m) es [].

(** [Array.from(m.values())] *)
Definition values (m : t) : list V := map snd m.

Definition keys (m : t) : list string := map fst m.

(** The value of the last entry of [es] with key [k]. *)
Fixpoint last_with (k : string) (es : list (string * V)) : option V :=
  match es with
  | [] => None
  | (k', v) :: es' =>
      match last_with k es' with
      | Some w => Some w
      | None => if decide (k' = k) then Some v else None
      end
  end.
End Defs.
Arguments t : clear implicits.
End JsMap.

(** ** Reconciliation: [app/ingestion/page.tsx] *)

Module Ingestion.

(** The template literal [`${item.symbol}-${item.exchange}`]. *)
Definition symbolKey (item : IngestedSymbol) : string :=
  symbol item +:+ "-" +:+ exchange item.

(** The identity of a record in the data model. *)
Definition identity (item : IngestedSymbol) : string * string :=
  (symbol item, exchange item).

(** [handleBulkUpload]: the list handed to [handleSetSymbols].
    [ingestedSymbols] is the query's [data], undefined until loaded. *)
Definition handleBulkUpload (ingestedSymbols : option (list IngestedSymbol))
    (symbols : list SymbolUpdate) : list IngestedSymbol :=
  let currentSymbols := default [] ingestedSymbols in
  let newSymbols := currentSymbols ++ symbols in
  let uniqueSymbolsMap :=
    JsMap.of_entries (map (fun item => (symbolKey item, item)) newSymbols) in
  let uniqueSymbols := JsMap.values uniqueSymbolsMap in
  uniqueSymbols.

(** [handleAddSymbol]: the same steps with a single new entry. *)
Definition handleAddSymbol (ingestedSymbols : option (list IngestedSymbol))
    (symbol : IngestedSymbol) : list IngestedSymbol :=
  let currentSymbols := default [] ingestedSymbols in
  let newSymbols := currentSymbols ++ [symbol] in
  let uniqueSymbolsMap :=
    JsMap.of_entries (map (fun item => (symbolKey item, item)) newSymbols) in
  let uniqueSymbols := JsMap.values uniqueSymbolsMap in
  uniqueSymbols.

(** The last two steps, which the two handlers share: the entries keyed,
    then the values of the map built from them. *)
Definition keyed (newSymbols : list IngestedSymbol) : list (string * IngestedSymbol) :=
  map (fun item => (symbolKey item, item)) newSymbols.

Definition uniqueSymbols (newSymbols : list IngestedSymbol) : list IngestedSymbol :=
  JsMap.values (JsMap.of_entries (keyed newSymbols)).

End Ingestion.

(** ** Strings of the JavaScript runtime *)

Module JsString.

(** A string in a condition is true when it is not empty; a missing value
    ([undefined], [null]) is false. *)
Definition truthy (s : option string) : bool :=
  match s with
  | Some (String _ _) => true
  | _ => false
  end.

(** White space as [String.prototype.trim] sees it, in the Basic Latin
    range: tab, line feed, vertical tab, form feed, carriage return and
    space. *)
Definition isWhiteSpace (c : ascii) : bool :=
  let n := nat_of_ascii c in
  ((9 <=? n) && (n <=? 13) || (n =? 32))%nat.

Fixpoint trimStart (s : string) : string :=
  match s with
  | String c s' => if isWhiteSpace c then trimStart s' else s
  | EmptyString => EmptyString
  end.

Fixpoint trimEnd (s : string) : string :=
  match s with
  | String c s' =>
      match trimEnd s' with
      | EmptyString => if isWhiteSpace c then EmptyString else String c EmptyString
      | r => String c r
      end
  | EmptyString => EmptyString
  end.

(** [s.trim()] *)
Definition trim (s : string) : string := trimEnd (trimStart s).

(** [s.split(sep)] for a separator of one character: the pieces between
    the separators, in order; a string without separator is one piece. *)
Fixpoint split (sep : ascii) (s : string) : list string :=
  match s with
  | EmptyString => [EmptyString]
  | String c s' =>
      if decide (c = sep) then EmptyString :: split sep s'
      else match split sep s' with
           | piece :: pieces => String c piece :: pieces
           | [] => [String c EmptyString]
           end
  end.

(** [s.includes(c)] for one character. *)
Fixpoint includes (c : ascii) (s : string) : bool :=
  match s with
  | EmptyString => false
  | String c' s' => bool_decide (c' = c) || includes c s'
  end.

Definition upperChar (c : ascii) : ascii :=
  let n := nat_of_ascii c in
  if ((97 <=? n) && (n <=? 122))%nat then ascii_of_nat (n - 32) else c.

(** [s.toUpperCase()], on the letters a to z. *)
Fixpoint toUpperCase (s : string) : string :=
  match s with
  | EmptyString => EmptyString
  | String c s' => String (upperChar c) (toUpperCase s')
  end.

Definition LF : ascii := ascii_of_nat 10.
Definition comma : ascii := ascii_of_nat 44.

End JsString.

(** ** Bulk upload: [components/BulkUploadModal.tsx] *)

Module BulkUpload.
Import JsString.

(** The callback of [lines.forEach]: it pushes onto [symbols] the entry of
    a line whose first two fields are both non-empty. *)
Definition pushLine (symbols : list SymbolUpdate) (line : string) : list SymbolUpdate :=
  let fields := map trim (split comma line) in
  let symbol := fields !! 0%nat in
  let exchange := fields !! 1%nat in
  match symbol, exchange with
  | Some sym, Some exch =>
      if truthy symbol && truthy exchange
      then symbols ++ [mkSymbol (toUpperCase sym) exch None None]
      else symbols
  | _, _ => symbols
  end.

(** [parseSymbols] *)
Definition parseSymbols (text : string) : list SymbolUpdate :=
  let lines := split LF (trim text) in
  fold_left pushLine lines [].

(** The text before and after the first occurrence of [sep], if any. *)
Fixpoint splitFirst (sep : ascii) (s : string) : option (string * string) :=
  match s with
  | EmptyString => None
  | String c s' =>
      if decide (c = sep) then Some (EmptyString, s')
      else match splitFirst sep s' with
           | Some (before, after) => Some (String c before, after)
           | None => None
           end
  end.

(** Parsing as the specification words it: every line is split on its
    first comma into a symbol code and an exchange code, both trimmed, the
    symbol code upper-cased; a line without one of the two is dropped. *)
Definition parseSymbols_first_comma (text : string) : list SymbolUpdate :=
  let lines := split LF (trim text) in
  fold_left (fun symbols line =>
    match splitFirst comma line with
    | Some (symbolCode, exchangeCode) =>
        if truthy (Some (trim symbolCode)) && truthy (Some (trim exchangeCode))
        then symbols ++ [mkSymbol (toUpperCase (trim symbolCode)) (trim exchangeCode) None None]
        else symbols
    | None => symbols
    end) lines [].

End BulkUpload.

(** ** Token store: [lib/auth.ts] *)

Module Auth.
Import JsString.

(** Where the code runs: [window] is the browser's local storage when
    there is a browser, and nothing during server-side rendering. *)
Record Env := mkEnv { window : option (gmap string string) }.

Definition TOKEN_KEY : string := "authToken".

Definition getToken (e : Env) : option string :=
  match window e with
  | Some localStorage => localStorage !! TOKEN_KEY
  | None => None
  end.

Definition setToken (token : string) (e : Env) : Env :=
  match window e with
  | Some localStorage => mkEnv (Some (<[TOKEN_KEY := token]> localStorage))
  | None => e
  end.

Definition removeToken (e : Env) : Env :=
  match window e with
  | Some localStorage => mkEnv (Some (delete TOKEN_KEY localStorage))
  | None => e
  end.

(** [!!token] *)
Definition isAuthenticated (e : Env) : bool :=
  let token := getToken e in
  truthy token.

End Auth.

(** ** API client: [lib/api.ts] *)

Module SearchParams.
Record t := mk {
  search_string : option string;
  exchange : option string;
  security_type : option string
}.

Global Instance eq_dec : EqDecision t.
Proof. solve_decision. Defined.
End SearchParams.

Record SystemConfig := mkConfig {
  schedule_hour : Z;
  schedule_minute : Z;
  timeframes_to_fetch : gmap string Z
}.

Module Api.
Import JsString Auth.

Inductive Method := GET | POST.

(** What a request carries as its body. *)
Inductive Body :=
| NoBody
| SymbolBody (symbol : IngestedSymbol)
| SymbolsBody (symbols : list IngestedSymbol)
| ConfigBody (config : SystemConfig)
| FormBody (fields : list (string * string)).

(** The request configuration that the axios instance hands from the
    caller through its interceptors to the network. *)
Record RequestConfig := mkRequest {
  method : Method;
  url : string;
  headers : gmap string string;
  params : option SearchParams.t;
  data : Body
}.

(** What the backend answers with. *)
Inductive Payload :=
| SymbolsData (symbols : list IngestedSymbol)
| ConfigData (config : SystemConfig)
| UserData (id : Z) (username : string)
| TokenData (access_token : string)
| OpaqueData.

(** How a call fails: no answer at all, or an answer with a status
    outside 2xx. *)
Inductive AxiosError :=
| NetworkError
| StatusError (status : nat).

(** The outcome of an awaited call: [Ok] when the promise resolves, [Err]
    when it rejects. *)
Inductive Result :=
| Ok (payload : Payload)
| Err (error : AxiosError).

Definition Backend := RequestConfig → Result.

(** The client side: the environment, the requests that left the client
    (oldest first) and the routes pushed on the router (oldest first). *)
Record World := mkWorld {
  env : Env;
  sent : list RequestConfig;
  pushed : list string
}.

(** The request interceptor registered with [api.interceptors.request.use]. *)
Definition requestInterceptor (e : Env) (config : RequestConfig) : RequestConfig :=
  let token := getToken e in
  match token with
  | Some t =>
      if truthy token
      then mkRequest (method config) (url config)
             (<["Authorization" := "Bearer " +:+ t]> (headers config))
             (params config) (data config)
      else config
  | None => config
  end.

Section Client.
Variable backend : Backend.

(** A request through the [api] instance: the interceptor runs, the
    request leaves, the backend answers. *)
Definition request (config : RequestConfig) (w : World) : Result * World :=
  let config' := requestInterceptor (env w) config in
  (backend config', mkWorld (env w) (sent w ++ [config']) (pushed w)).

Definition api_get (url : string) (params : option SearchParams.t) :=
  request (mkRequest GET url ∅ params NoBody).

Definition api_post (url : string) (data : Body) (headers : gmap string string) :=
  request (mkRequest POST url headers None data).

Definition searchSymbols (params : SearchParams.t) :=
  api_get "/search_symbols/" (Some params).

Definition getIngestedSymbols := api_get "/get_ingestion_symbols/" None.

Definition addSymbol (symbol : IngestedSymbol) :=
  api_post "/add_ingestion_symbol/" (SymbolBody symbol) ∅.

Definition removeIngestedSymbol (symbol : IngestedSymbol) :=
  api_post "/remove_ingestion_symbol/" (SymbolBody symbol) ∅.

Definition setSymbols (symbols : list IngestedSymbol) :=
  api_post "/set_ingestion_symbols/" (SymbolsBody symbols) ∅.

Definition getSystemConfig := api_get "/get_system_config/" None.

Definition setSystemConfig (config : SystemConfig) :=
  api_post "/set_system_config/" (ConfigBody config) ∅.

Definition loginUser (username password : string) :=
  api_post "/token" (FormBody [("username", username); ("password", password)])
    {["Content-Type" := "application/x-www-form-urlencoded"]}.

Definition getCurrentUser := api_get "/users/me/" None.

(** The endpoint functions the module exports, with their arguments. *)
Inductive Endpoint :=
| SearchSymbols (params : SearchParams.t)
| GetIngestedSymbols
| AddSymbol (symbol : IngestedSymbol)
| RemoveIngestedSymbol (symbol : IngestedSymbol)
| SetSymbols (symbols : list IngestedSymbol)
| GetSystemConfig
| SetSystemConfig (config : SystemConfig)
| LoginUser (username password : string)
| GetCurrentUser.

Definition call (ep : Endpoint) : World → Result * World :=
  match ep with
  | SearchSymbols params => searchSymbols params
  | GetIngestedSymbols => getIngestedSymbols
  | AddSymbol symbol => addSymbol symbol
  | RemoveIngestedSymbol symbol => removeIngestedSymbol symbol
  | SetSymbols symbols => setSymbols symbols
  | GetSystemConfig => getSystemConfig
  | SetSystemConfig config => setSystemConfig config
  | LoginUser username password => loginUser username password
  | GetCurrentUser => getCurrentUser
  end.
End Client.
End Api.

(** ** Auth gate: [components/withAuth.tsx] *)

Module WithAuth.
Import JsString Auth Api.

(** What [Wrapper] renders: the "Authenticating..." screen or the wrapped
    component. *)
Inductive View := Authenticating | Wrapped.

(** A mounted [Wrapper]: the client it runs in and its [isLoading] state. *)
Record Wrapper := mkWrapper {
  world : World;
  isLoading : bool
}.

(** [useState(true)] *)
Definition mount (w : World) : Wrapper := mkWrapper w true.

Definition render (s : Wrapper) : View :=
  if isLoading s then Authenticating else Wrapped.

Definition setIsLoading (b : bool) (s : Wrapper) : Wrapper :=
  mkWrapper (world s) b.

Definition routerPush (route : string) (w : World) : World :=
  mkWorld (env w) (sent w) (pushed w ++ [route]).

(** [verifyToken], run by the effect after mount and on a change of
    route. The awaited call either resolves or rejects; the state is not
    touched in between. *)
Definition verifyToken (backend : Backend) (pathname : string) (s : Wrapper) : Wrapper :=
  if decide (pathname = "/login") then setIsLoading false s
  else
    let token := getToken (env (world s)) in
    if negb (truthy token) then mkWrapper (routerPush "/login" (world s)) (isLoading s)
    else
      let '(r, w) := getCurrentUser backend (world s) in
      match r with
      | Ok _ => setIsLoading false (mkWrapper w (isLoading s))
      | Err _ =>
          let w := mkWorld (removeToken (env w)) (sent w) (pushed w) in
          mkWrapper (routerPush "/login" w) (isLoading s)
      end.

End WithAuth.

(** ** The query cache of the data-fetching library

    The hooks hand their options to [useQuery] and [useMutation] of
    [@tanstack/react-query]. The part of the library's contract the panel
    relies on is modelled here: a cache of query results by query key, a
    query fetching when it is enabled and has no usable data, invalidation
    by key prefix, and a mutation running [onSuccess] after its function
    resolved. Staleness by age and retries are left out: they only add
    fetches for enabled queries. *)

Module ReactQuery.
Import Api.

Inductive KeyPart :=
| KString (s : string)
| KParams (params : SearchParams.t).

Global Instance KeyPart_eq_dec : EqDecision KeyPart.
Proof. solve_decision. Defined.

Definition KeyPart_encode (k : KeyPart)
    : string + (option string * option string * option string) :=
  match k with
  | KString s => inl s
  | KParams p => inr (SearchParams.search_string p, SearchParams.exchange p,
                      SearchParams.security_type p)
  end.

Definition KeyPart_decode
    (x : string + (option string * option string * option string)) : KeyPart :=
  match x with
  | inl s => KString s
  | inr (a, b, c) => KParams (SearchParams.mk a b c)
  end.

Global Instance KeyPart_countable : Countable KeyPart.
Proof.
  apply (inj_countable' KeyPart_encode KeyPart_decode).
  intros [s|[a b c]]; reflexivity.
Defined.

Abbreviation QueryKey := (list KeyPart).

(** A cached query: the data of the last successful fetch, and whether it
    was invalidated since. *)
Record Query := mkQuery {
  queryData : option Payload;
  isInvalidated : bool
}.

Abbreviation QueryClient := (gmap (list KeyPart) Query).

(** [queryClient.invalidateQueries({ queryKey })]: every cached query
    whose key starts with [queryKey] is marked invalidated. *)
Definition invalidateQueries (queryKey : QueryKey) (c : QueryClient) : QueryClient :=
  map_imap (fun k q =>
    Some (if bool_decide (queryKey `prefix_of` k)
          then mkQuery (queryData q) true else q)) c.

Record QueryOptions := mkQueryOptions {
  queryKey : QueryKey;
  queryFn : World → Result * World;
  enabled : bool
}.

(** Whether a query with these options fetches when it is read: it must be
    enabled, and the cache must hold no data for the key or hold
    invalidated data. *)
Definition fetches (o : QueryOptions) (c : QueryClient) : bool :=
  enabled o &&
  match c !! queryKey o with
  | Some q => match queryData q with
              | Some _ => isInvalidated q
              | None => true
              end
  | None => true
  end.

(** Reading a query: the fetch, if any, goes out and its result is
    cached; the read returns the data then in the cache. *)
Definition read (o : QueryOptions) (c : QueryClient) (w : World)
    : option Payload * QueryClient * World :=
  if fetches o c then
    let '(r, w') := queryFn o w in
    match r with
    | Ok d => (Some d, <[queryKey o := mkQuery (Some d) false]> c, w')
    | Err _ => ((c !! queryKey o) ≫= queryData, c, w')
    end
  else ((c !! queryKey o) ≫= queryData, c, w).

Record MutationOptions (V : Type) := mkMutationOptions {
  mutationFn : V → World → Result * World;
  onSuccess : QueryClient → QueryClient
}.
Arguments mutationFn {V}.
Arguments onSuccess {V}.
Arguments mkMutationOptions {V}.

(** [mutateAsync(variables)]: [onSuccess] runs when, and only when, the
    mutation function resolved. *)
Definition mutateAsync {V} (m : MutationOptions V) (variables : V)
    (c : QueryClient) (w : World) : Result * QueryClient * World :=
  let '(r, w') := mutationFn m variables w in
  match r with
  | Ok _ => (r, onSuccess m c, w')
  | Err _ => (r, c, w')
  end.

End ReactQuery.

(** ** Data-access hooks: [hooks/useSymbols.ts], [hooks/useConfig.ts] *)

Module Hooks.
Import Api ReactQuery.

Section Hooks.
Variable backend : Backend.

Definition useSearchSymbols (params : SearchParams.t) (enabled : bool) : QueryOptions :=
  mkQueryOptions [KString "symbols"; KParams params] (searchSymbols backend params) enabled.

Definition useIngestedSymbols : QueryOptions :=
  mkQueryOptions [KString "ingestedSymbols"] (getIngestedSymbols backend) true.

Definition useAddSymbol : MutationOptions IngestedSymbol :=
  mkMutationOptions (addSymbol backend)
    (invalidateQueries [KString "ingestedSymbols"]).

Definition useRemoveSymbol : MutationOptions IngestedSymbol :=
  mkMutationOptions (removeIngestedSymbol backend)
    (invalidateQueries [KString "ingestedSymbols"]).

Definition useSetSymbols : MutationOptions (list IngestedSymbol) :=
  mkMutationOptions (fun symbols => setSymbols backend symbols)
    (invalidateQueries [KString "ingestedSymbols"]).

Definition useSystemConfig : QueryOptions :=
  mkQueryOptions [KString "systemConfig"] (getSystemConfig backend) true.

Definition useSetSystemConfig : MutationOptions SystemConfig :=
  mkMutationOptions (fun config => setSystemConfig backend config)
    (invalidateQueries [KString "systemConfig"]).
End Hooks.
End Hooks.

(** ** Debounced value: [useDebounce] of [use-debounce]

    The hook returns the value it was given once that value has stayed the
    same for [delay] milliseconds. Time is a count of milliseconds. *)

Module UseDebounce.

Record t := mk {
  previousValue : string;   (* the value seen at the last render *)
  state : string;           (* the debounced value the hook returns *)
  timer : option nat        (* when the pending timer fires, if one is set *)
}.

(** First render: the debounced value is the initial value. *)
Definition init (value : string) : t := mk value value None.

(** A later render at time [now]: a changed value (re)starts the timer. *)
Definition render (now : nat) (value : string) (delay : nat) (d : t) : t :=
  if decide (previousValue d = value) then d
  else mk value (state d) (Some (now + delay)%nat).

(** Time has advanced to [now]: a timer that is due fires and the
    debounced value becomes the value last seen. *)
Definition fire (now : nat) (d : t) : t :=
  match timer d with
  | Some due => if (due <=? now)%nat then mk (previousValue d) (previousValue d) None else d
  | None => d
  end.

End UseDebounce.

(** ** Symbol search: [components/SymbolSearch.tsx] *)

Module SymbolSearch.
Import Api ReactQuery Hooks.

Record Component := mk {
  now : nat;
  searchString : string;
  exchange : string;
  securityType : string;
  debounce : UseDebounce.t;
  cache : QueryClient;
  world : World
}.

Definition debouncedSearchString (c : Component) : string :=
  UseDebounce.state (debounce c).

(** [debouncedSearchString.length > 2] *)
Definition searchEnabled (c : Component) : bool :=
  (2 <? String.length (debouncedSearchString c))%nat.

Section Search.
Variable backend : Backend.

(** The options of the [useSearchSymbols] call of a render. *)
Definition query (c : Component) : QueryOptions :=
  useSearchSymbols backend
    (SearchParams.mk (Some (debouncedSearchString c)) (Some (exchange c))
                     (Some (securityType c)))
    (searchEnabled c).

(** [data: symbols] of the render. *)
Definition symbols (c : Component) : option Payload :=
  (cache c !! queryKey (query c)) ≫= queryData.

(** A render after the state went from [before] to [after]: the debounce
    hook sees the search string, and a query whose key or [enabled] option
    changed is read anew. *)
Definition rerender (before after : Component) : Component :=
  let d := UseDebounce.render (now after) (searchString after) 500 (debounce after) in
  let after := mk (now after) (searchString after) (exchange after)
                  (securityType after) d (cache after) (world after) in
  if decide (queryKey (query before) = queryKey (query after)
             ∧ enabled (query before) = enabled (query after))
  then after
  else
    let '(_, c', w') := read (query after) (cache after) (world after) in
    mk (now after) (searchString after) (exchange after) (securityType after)
       (debounce after) c' w'.

(** First render: all inputs empty, nothing debounced yet. *)
Definition mount (now : nat) (cache : QueryClient) (w : World) : Component :=
  let c := mk now "" "" "" (UseDebounce.init "") cache w in
  let '(_, c', w') := read (query c) cache w in
  mk now "" "" "" (UseDebounce.init "") c' w'.

Inductive Event :=
| SetSearchString (value : string)    (* typing in the search field *)
| SetExchange (value : string)
| SetSecurityType (value : string)
| Elapse (ms : nat).                  (* time passing without input *)

Definition step (ev : Event) (c : Component) : Component :=
  match ev with
  | SetSearchString v =>
      rerender c (mk (now c) v (exchange c) (securityType c)
                     (debounce c) (cache c) (world c))
  | SetExchange v =>
      rerender c (mk (now c) (searchString c) v (securityType c)
                     (debounce c) (cache c) (world c))
  | SetSecurityType v =>
      rerender c (mk (now c) (searchString c) (exchange c) v
                     (debounce c) (cache c) (world c))
  | Elapse ms =>
      let now' := (now c + ms)%nat in
      rerender c (mk now' (searchString c) (exchange c) (securityType c)
                     (UseDebounce.fire now' (debounce c)) (cache c) (world c))
  end.

(** No search result is cached for a search text of two characters or
    fewer. *)
Definition short_keys_empty (cache : QueryClient) : Prop :=
  ∀ params q s,
    cache !! [KString "symbols"; KParams params] = Some q →
    SearchParams.search_string params = Some s →
    (String.length s ≤ 2)%nat →
    queryData q = None.
End Search.
End SymbolSearch.

(** ** What a settled mutation leaves in the cache *)

Module CacheSpec.
Import Api ReactQuery.

(** [c'] is [c] with the queries under [key] invalidated and nothing else
    changed. *)
Definition invalidated_exactly (key : QueryKey) (c c' : QueryClient) : Prop :=
  (∀ k q, c !! k = Some q → key `prefix_of` k →
          c' !! k = Some (mkQuery (queryData q) true)) ∧
  (∀ k, ¬ key `prefix_of` k → c' !! k = c !! k) ∧
  (∀ k, c !! k = None → c' !! k = None).

(** The mutation [m] run on [variables], whose function sends [request]
    through the client. The backend's answer to that request decides: on a
    successful answer the mutation resolves with it, one request was sent,
    exactly the queries under [key] are invalidated, and the next read of
    the query [o] sends its request and returns what the backend answers,
    not what was cached; on a failure the mutation rejects with the error,
    one request was sent and the cache is as before. *)
Definition settles (backend : Backend) {V} (m : MutationOptions V) (variables : V)
    (request : RequestConfig) (key : QueryKey) (o : QueryOptions)
    (c : QueryClient) (w : World) : Prop :=
  let sentRequest := requestInterceptor (env w) request in
  let w' := mkWorld (env w) (sent w ++ [sentRequest]) (pushed w) in
  match backend sentRequest with
  | Ok payload =>
      mutateAsync m variables c w = (Ok payload, invalidateQueries key c, w') ∧
      invalidated_exactly key c (invalidateQueries key c) ∧
      queryKey o = key ∧
      fetches o (invalidateQueries key c) = true ∧
      (∃ config, sent (read o (invalidateQueries key c) w').2 = sent w' ++ [config]) ∧
      (∀ d, (queryFn o w').1 = Ok d →
            (read o (invalidateQueries key c) w').1.1 = Some d)
  | Err error =>
      mutateAsync m variables c w = (Err error, c, w')
  end.

End CacheSpec.

(** ** Shapes of strings *)

Module Clean.
Import JsString.

(** No white space at the start, resp. at the end. *)
Definition startsClean (s : string) : bool :=
  match s with
  | String c _ => negb (isWhiteSpace c)
  | EmptyString => true
  end.

Fixpoint endsClean (s : string) : bool :=
  match s with
  | EmptyString => true
  | String c EmptyString => negb (isWhiteSpace c)
  | String _ s' => endsClean s'
  end.

(** A field as [parseSymbols] leaves it: not empty, no white space around
    it, no comma and no line feed in it. *)
Definition cleanField (s : string) : Prop :=
  s ≠ "" ∧ startsClean s = true ∧ endsClean s = true ∧
  includes comma s = false ∧ includes LF s = false.

(** An entry as [parseSymbols] builds it: two clean fields, the symbol in
    upper case, no description and no security type. *)
Definition normalised (e : IngestedSymbol) : Prop :=
  cleanField (symbol e) ∧ cleanField (exchange e) ∧
  toUpperCase (symbol e) = symbol e ∧
  description e = None ∧ securityType e = None.

(** The line "SYMBOL,EXCHANGE" of an entry, and the text of a list of
    entries, one line each. *)
Definition lineOf (e : IngestedSymbol) : string :=
  symbol e +:+ "," +:+ exchange e.

Definition textOf (l : list IngestedSymbol) : string :=
  String.concat (String LF "") (map lineOf l).

End Clean.

(** ** Login page: [app/login/page.tsx] *)

Module LoginPage.
Import JsString Auth Api WithAuth.

Inductive Toast :=
| ToastError (message : string)
| ToastSuccess (message : string).

(** The page: its form state, the toasts shown so far (oldest first) and
    the client it runs in. *)
Record Page := mkPage {
  username : string;
  password : string;
  loading : bool;
  toasts : list Toast;
  world : World
}.

(** [response.access_token] of the resolved call; a payload of another
    shape has no such field. *)
Definition access_token (payload : Payload) : option string :=
  match payload with
  | TokenData t => Some t
  | _ => None
  end.

(** A missing value handed to [localStorage.setItem] is stored as the text
    "undefined". *)
Definition toStorageString (v : option string) : string :=
  match v with
  | Some t => t
  | None => "undefined"
  end.

Section Login.
Variable backend : Backend.
(** [error.response?.data?.detail] *)
Variable detail : AxiosError → option string.

(** [handleSubmit] *)
Definition handleSubmit (p : Page) : Page :=
  if negb (truthy (Some (username p))) || negb (truthy (Some (password p)))
  then mkPage (username p) (password p) (loading p)
         (toasts p ++ [ToastError "Please enter both username and password"])
         (world p)
  else
    let '(r, w) := loginUser backend (username p) (password p) (world p) in
    match r with
    | Ok response =>
        let w := mkWorld (setToken (toStorageString (access_token response)) (env w))
                   (sent w) (pushed w) in
        mkPage (username p) (password p) false
          (toasts p ++ [ToastSuccess "Logged in successfully"])
          (routerPush "/" w)
    | Err error =>
        let errorMessage :=
          if truthy (detail error) then default "" (detail error)
          else "Invalid username or password" in
        mkPage (username p) (password p) false
          (toasts p ++ [ToastError errorMessage]) w
    end.
End Login.
End LoginPage.

(** ** Layout: [app/layout.tsx] *)

Module Layout.
Import Auth Api WithAuth.

(** [pathname !== '/login'] *)
Definition showSidebar (pathname : string) : bool :=
  negb (bool_decide (pathname = "/login")).

(** [handleLogout] *)
Definition handleLogout (w : World) : World :=
  routerPush "/login" (mkWorld (removeToken (env w)) (sent w) (pushed w)).

End Layout.

(** ** The two modals of the ingestion page *)

Module BulkUploadModal.
Import JsString BulkUpload.

Record Modal := mkModal {
  textInput : string;
  fileContent : string
}.

(** [disabled={!fileContent && !textInput}] of the upload button. *)
Definition uploadDisabled (m : Modal) : bool :=
  negb (truthy (Some (fileContent m))) && negb (truthy (Some (textInput m))).

(** [handleSubmit]: the new state of the modal and, when [onUpload] and
    [onClose] were called, the symbols handed to [onUpload]. *)
Definition handleSubmit (m : Modal) : Modal * option (list SymbolUpdate) :=
  let content := if truthy (Some (fileContent m)) then fileContent m else textInput m in
  let symbols := parseSymbols content in
  if (0 <? length symbols)%nat
  then (mkModal "" "", Some symbols)
  else (m, None).

End BulkUploadModal.

Module AddSymbolModal.
Import JsString.

(** The two inputs of the form, [symbol] and [exchange] in the source. *)
Record Form := mkForm {
  symbolInput : string;
  exchangeInput : string
}.

(** [handleSubmit]: the new state of the form and, when [onAdd] and
    [onClose] were called, the entry handed to [onAdd]. *)
Definition handleSubmit (f : Form) : Form * option SymbolUpdate :=
  if truthy (Some (symbolInput f)) && truthy (Some (exchangeInput f))
  then (mkForm "" "",
        Some (mkSymbol (toUpperCase (symbolInput f)) (exchangeInput f) None None))
  else (f, None).

End AddSymbolModal.

(** ** Ingestion page, from the modals to the request *)

Module IngestionPage.
Import Api ReactQuery Hooks.

Section Page.
Variable backend : Backend.

(** [handleSetSymbols]: [setSymbolsMutation.mutateAsync(symbols)] *)
Definition handleSetSymbols (symbols : list IngestedSymbol)
    (c : QueryClient) (w : World) : Result * QueryClient * World :=
  mutateAsync (useSetSymbols backend) symbols c w.

(** [handleRemoveSymbol]: [removeSymbolMutation.mutateAsync(symbol)] *)
Definition handleRemoveSymbol (symbol : IngestedSymbol)
    (c : QueryClient) (w : World) : Result * QueryClient * World :=
  mutateAsync (useRemoveSymbol backend) symbol c w.

(** [handleBulkUpload] with its call of [handleSetSymbols]. *)
Definition handleBulkUpload (ingestedSymbols : option (list IngestedSymbol))
    (symbols : list SymbolUpdate) (c : QueryClient) (w : World) :=
  handleSetSymbols (Ingestion.handleBulkUpload ingestedSymbols symbols) c w.

(** [handleAddSymbol] with its call of [handleSetSymbols]. *)
Definition handleAddSymbol (ingestedSymbols : option (list IngestedSymbol))
    (symbol : IngestedSymbol) (c : QueryClient) (w : World) :=
  handleSetSymbols (Ingestion.handleAddSymbol ingestedSymbols symbol) c w.

(** The upload button of the bulk modal, wired as [onUpload={handleBulkUpload}]:
    the modal afterwards and, if it uploaded, what the page did. *)
Definition submitBulkUpload (m : BulkUploadModal.Modal)
    (ingestedSymbols : option (list IngestedSymbol)) (c : QueryClient) (w : World)
    : BulkUploadModal.Modal * option (Result * QueryClient * World) :=
  match BulkUploadModal.handleSubmit m with
  | (m', Some symbols) => (m', Some (handleBulkUpload ingestedSymbols symbols c w))
  | (m', None) => (m', None)
  end.

(** The submit button of the add modal, wired as [onAdd={handleAddSymbol}]. *)
Definition submitAddSymbol (f : AddSymbolModal.Form)
    (ingestedSymbols : option (list IngestedSymbol)) (c : QueryClient) (w : World)
    : AddSymbolModal.Form * option (Result * QueryClient * World) :=
  match AddSymbolModal.handleSubmit f with
  | (f', Some symbol) => (f', Some (handleAddSymbol ingestedSymbols symbol c w))
  | (f', None) => (f', None)
  end.
End Page.
End IngestionPage.

(** ** Search results table: [components/SymbolTable.tsx] *)

Module SymbolTable.
Import JsString Api ReactQuery Hooks.

(** [securityTypeColors] *)
Definition securityTypeColors : gmap string string :=
  {[ "STOCK" := "bg-green-900/50 text-green-300 border border-green-700";
     "FUTURES" := "bg-orange-900/50 text-orange-300 border border-orange-700" ]}.

(** [getSecurityTypeColor] *)
Definition getSecurityTypeColor (type : option string) : string :=
  if negb (truthy type) then "bg-slate-700 text-slate-300"
  else
    let found := securityTypeColors !! toUpperCase (default "" type) in
    if truthy found then default "" found else "bg-slate-700 text-slate-300".

(** The state of the table: the keys of the rows whose add button was
    pressed. *)
Definition rowKey (item : IngestedSymbol) : string :=
  symbol item +:+ "-" +:+ exchange item.

Definition isAdded (addedSymbols : gset string) (item : IngestedSymbol) : bool :=
  bool_decide (rowKey item ∈ addedSymbols).

Section Table.
Variable backend : Backend.

(** [handleAddSymbol] of the table, with [onAddSymbol] the handler of the
    search component: the mutation is started, the row is marked. *)
Definition handleAddSymbol (item : IngestedSymbol) (addedSymbols : gset string)
    (c : QueryClient) (w : World) : gset string * (Result * QueryClient * World) :=
  let added :=
    mutateAsync (useAddSymbol backend)
      (mkSymbol (symbol item) (exchange item) (description item) (securityType item))
      c w in
  ({[rowKey item]} ∪ addedSymbols, added).
End Table.
End SymbolTable.

(** ** Cookie token store: [lib/auth-secure.ts] *)

Module AuthSecure.
Import JsString.

Record CookieOptions := mkOptions {
  httpOnly : bool;
  secure : bool;
  sameSite : string;
  maxAge : N;                (* seconds *)
  path : string
}.

Record Cookie := mkCookie {
  value : string;
  options : CookieOptions
}.

Definition TOKEN_KEY : string := "authToken".
Definition REFRESH_TOKEN_KEY : string := "refreshToken".

(** [COOKIE_OPTIONS]; [production] is [process.env.NODE_ENV === 'production']. *)
Definition COOKIE_OPTIONS (production : bool) : CookieOptions :=
  mkOptions true production "strict" (60 * 60 * 24 * 7)%N "/".

(** [setToken]: the cookie store before and after. *)
Definition setToken (production : bool) (token : string) (refreshToken : option string)
    (cookieStore : gmap string Cookie) : gmap string Cookie :=
  let cookieStore := <[TOKEN_KEY := mkCookie token (COOKIE_OPTIONS production)]> cookieStore in
  if truthy refreshToken
  then <[REFRESH_TOKEN_KEY :=
           mkCookie (default "" refreshToken)
             (mkOptions true production "strict" (60 * 60 * 24 * 30)%N "/")]> cookieStore
  else cookieStore.

(** [cookieStore.get(name)?.value || null] *)
Definition getValue (name : string) (cookieStore : gmap string Cookie) : option string :=
  let v := value <$> cookieStore !! name in
  if truthy v then v else None.

Definition getToken (cookieStore : gmap string Cookie) : option string :=
  getValue TOKEN_KEY cookieStore.

Definition getRefreshToken (cookieStore : gmap string Cookie) : option string :=
  getValue REFRESH_TOKEN_KEY cookieStore.

Definition removeToken (cookieStore : gmap string Cookie) : gmap string Cookie :=
  delete REFRESH_TOKEN_KEY (delete TOKEN_KEY cookieStore).

Definition isAuthenticated (cookieStore : gmap string Cookie) : bool :=
  let token := getToken cookieStore in
  truthy token.

End AuthSecure.

(** ** The requests of the endpoint functions, as handed to the client *)

Module Requests.
Import Api.

Definition currentUserRequest : RequestConfig :=
  mkRequest GET "/users/me/" ∅ None NoBody.

Definition loginRequest (username password : string) : RequestConfig :=
  mkRequest POST "/token"
    {["Content-Type" := "application/x-www-form-urlencoded"]} None
    (FormBody [("username", username); ("password", password)]).

Definition setSymbolsRequest (symbols : list IngestedSymbol) : RequestConfig :=
  mkRequest POST "/set_ingestion_symbols/" ∅ None (SymbolsBody symbols).

Definition addSymbolRequest (symbol : IngestedSymbol) : RequestConfig :=
  mkRequest POST "/add_ingestion_symbol/" ∅ None (SymbolBody symbol).

Definition removeSymbolRequest (symbol : IngestedSymbol) : RequestConfig :=
  mkRequest POST "/remove_ingestion_symbol/" ∅ None (SymbolBody symbol).

Definition setSystemConfigRequest (config : SystemConfig) : RequestConfig :=
  mkRequest POST "/set_system_config/" ∅ None (ConfigBody config).

Definition searchRequest (params : SearchParams.t) : RequestConfig :=
  mkRequest GET "/search_symbols/" ∅ (Some params) NoBody.

End Requests.

(** ** Runs of the search component *)

Module SearchRuns.
Import Api SymbolSearch.

(** The events of a session, one after the other. *)
Definition run (backend : Backend) (events : list Event) (c : Component) : Component :=
  fold_left (fun c ev => step backend ev c) events c.

(** A search request as the component sends it: a GET of the search
    endpoint whose search text has more than two characters. *)
Definition longSearch (r : RequestConfig) : Prop :=
  method r = GET ∧ url r = "/search_symbols/" ∧
  ∃ p s, params r = Some p ∧ SearchParams.search_string p = Some s ∧
         (2 < String.length s)%nat.

End SearchRuns.

(** * Properties *)

(** ** The JavaScript [Map] *)

Module JsMapFacts.
Import JsMap.
Section Facts.
Context {V : Type}.
Implicit Types (m : JsMap.t V) (k : string) (v : V) (es : list (string * V)).

Lemma get_set k k' v m :
  get k (set k' v m) = if decide (k' = k) then Some v else get k m.
Proof.
  induction m as [|[k0 v0] m IH]; simpl.
  - repeat case_decide; congruence.
  - destruct (decide (k0 = k')) as [->|Hne]; simpl.
    + repeat case_decide; congruence.
    + rewrite IH. repeat case_decide; congruence.
Qed.

Lemma keys_set_in k v m : k ∈ keys m → keys (set k v m) = keys m.
Proof.
  induction m as [|[k0 v0] m IH]; simpl; intros Hin.
  - by apply elem_of_nil in Hin.
  - case_decide; simpl; [done|].
    apply elem_of_cons in Hin as [->|Hin]; [done|]. by rewrite IH.
Qed.

Lemma keys_set_notin k v m : k ∉ keys m → set k v m = m ++ [(k, v)].
Proof.
  induction m as [|[k0 v0] m IH]; simpl; intros Hin; [done|].
  apply not_elem_of_cons in Hin as [Hne Hin].
  case_decide; [congruence|]. by rewrite IH.
Qed.

Lemma get_None k m : get k m = None ↔ k ∉ keys m.
Proof.
  induction m as [|[k0 v0] m IH]; simpl.
  - split; [intros _; apply not_elem_of_nil|done].
  - rewrite not_elem_of_cons, <- IH. case_decide; split; try done.
    + intros [? _]. congruence.
    + by intros [_ ?].
Qed.

Lemma NoDup_keys_set k v m : NoDup (keys m) → NoDup (keys (set k v m)).
Proof.
  intros Hnd. destruct (decide (k ∈ keys m)) as [Hin|Hin].
  - by rewrite keys_set_in.
  - rewrite keys_set_notin by done. unfold keys. rewrite map_app. simpl.
    apply NoDup_app. split_and!; [done| |apply NoDup_singleton].
    intros x Hx Hx'. apply list_elem_of_singleton in Hx' as ->. done.
Qed.

Lemma fold_set_NoDup es m :
  NoDup (keys m) → NoDup (keys (fold_left (fun m e => set e.1 e.2 m) es m)).
Proof.
  revert m. induction es as [|e es IH]; simpl; intros m Hnd; [done|].
  apply IH. by apply NoDup_keys_set.
Qed.

Lemma of_entries_NoDup es : NoDup (keys (of_entries es)).
Proof. apply fold_set_NoDup. apply NoDup_nil_2. Qed.

Lemma get_fold_set k es m :
  get k (fold_left (fun m e => set e.1 e.2 m) es m) =
  match last_with k es with Some v => Some v | None => get k m end.
Proof.
  revert m. induction es as [|[k0 v0] es IH]; simpl; intros m; [done|].
  rewrite IH, get_set. simpl. destruct (last_with k es); [done|].
  by case_decide.
Qed.

Lemma get_of_entries k es : get k (of_entries es) = last_with k es.
Proof. unfold of_entries. rewrite get_fold_set. by destruct (last_with k es). Qed.

Lemma get_Some_elem k v m : get k m = Some v → (k, v) ∈ m.
Proof.
  induction m as [|[k0 v0] m IH]; simpl; [done|].
  case_decide; intros Hg.
  - simplify_eq. apply elem_of_cons. by left.
  - apply elem_of_cons. right. by apply IH.
Qed.

Lemma elem_get_Some k v m : NoDup (keys m) → (k, v) ∈ m → get k m = Some v.
Proof.
  induction m as [|[k0 v0] m IH]; simpl; intros Hnd Hin.
  - by apply elem_of_nil in Hin.
  - apply NoDup_cons in Hnd as [Hk0 Hnd].
    apply elem_of_cons in Hin as [Heq|Hin].
    + simplify_eq. by case_decide.
    + case_decide as Hk; [|by apply IH].
      subst k0. exfalso. apply Hk0.
      apply list_elem_of_fmap. by exists (k, v).
Qed.

(** Two maps with the same keys in the same order and the same lookups
    are the same list of entries. *)
Lemma ext m1 m2 :
  NoDup (keys m1) → keys m1 = keys m2 →
  (∀ k, get k m1 = get k m2) → m1 = m2.
Proof.
  revert m2. induction m1 as [|[k1 v1] m1 IH]; intros [|[k2 v2] m2];
    simpl; intros Hnd Hk Hg; try done.
  injection Hk as -> Hk.
  apply NoDup_cons in Hnd as [Hk2 Hnd].
  pose proof (Hg k2) as Hv. rewrite !decide_True in Hv by done.
  simplify_eq. f_equal. apply IH; [done..|].
  intros k. specialize (Hg k). case_decide; [|done].
  subst k. transitivity (@None V); [|symmetry]; apply get_None; [done|].
  by rewrite <- Hk.
Qed.

Lemma last_with_app k es1 es2 :
  last_with k (es1 ++ es2) =
  match last_with k es2 with Some v => Some v | None => last_with k es1 end.
Proof.
  induction es1 as [|[k0 v0] es1 IH]; simpl.
  - by destruct (last_with k es2).
  - rewrite IH. by destruct (last_with k es2).
Qed.

Lemma last_with_None k es : last_with k es = None ↔ k ∉ keys es.
Proof.
  induction es as [|[k0 v0] es IH]; simpl.
  - split; [intros _; apply not_elem_of_nil|done].
  - rewrite not_elem_of_cons, <- IH.
    destruct (last_with k es), (decide (k0 = k)); split; try done.
    + by intros [_ ?].
    + by intros [_ ?].
    + intros [? _]. congruence.
Qed.

(** For entries keyed by a function [f], [last_with] picks the last
    value whose key is [k]. *)
Lemma last_with_keyed (f : V → string) k e (l : list V) :
  last_with k (map (λ x, (f x, x)) l) = Some e ↔
  f e = k ∧ ∃ pre post, l = pre ++ e :: post ∧ Forall (λ x, f x ≠ k) post.
Proof.
  split.
  - induction l as [|x l IH]; simpl; [done|].
    destruct (last_with k (map (λ x, (f x, x)) l)) as [w|] eqn:Hl.
    + intros Hw. injection Hw as ->.
      destruct (IH eq_refl) as (Hk & pre & post & -> & Hp).
      split; [done|]. by exists (x :: pre), post.
    + apply last_with_None in Hl.
      case_decide as Hk; [|done]. intros Hw. injection Hw as ->.
      split; [done|]. exists [], l. split; [done|].
      apply Forall_forall. intros y Hy Hfy. apply Hl.
      unfold keys. rewrite map_map. simpl.
      apply list_elem_of_fmap. by exists y.
  - intros (Hk & pre & post & -> & Hp). rewrite map_app, last_with_app. simpl.
    assert (last_with k (map (λ x, (f x, x)) post) = None) as ->.
    { apply last_with_None. unfold keys. rewrite map_map. simpl.
      intros Hin. apply list_elem_of_fmap in Hin as (y & Hy & Hin).
      rewrite Forall_forall in Hp. by apply (Hp y). }
    by rewrite decide_True.
Qed.

(** Entries that came in keyed by [f] stay keyed by [f]. *)
Lemma fold_set_keyed (f : V → string) es m :
  Forall (λ e, e.1 = f e.2) es → Forall (λ e, e.1 = f e.2) m →
  Forall (λ e, e.1 = f e.2) (fold_left (λ m e, set e.1 e.2 m) es m).
Proof.
  revert m. induction es as [|[k v] es IH]; simpl; intros m Hes Hm; [done|].
  apply Forall_cons in Hes as [Hk Hes]. simpl in Hk. apply IH; [done|].
  clear IH Hes. induction m as [|[k0 v0] m IHm]; simpl.
  - by apply Forall_cons.
  - apply Forall_cons in Hm as [Hk0 Hm]. simpl in Hk0. case_decide.
    + apply Forall_cons. split; [simpl; congruence|done].
    + apply Forall_cons. split; [done|]. by apply IHm.
Qed.

Lemma keyed_values (f : V → string) m :
  Forall (λ e, e.1 = f e.2) m → map (λ x, (f x, x)) (values m) = m.
Proof.
  induction m as [|[k v] m IH]; simpl; intros Hm; [done|].
  apply Forall_cons in Hm as [Hk Hm]. simpl in Hk. rewrite IH by done.
  by rewrite Hk.
Qed.

(** Building a map from the entries of a map gives the same map. *)
Lemma fold_set_fresh m2 m1 :
  NoDup (keys (m1 ++ m2)) → fold_left (λ m e, set e.1 e.2 m) m2 m1 = m1 ++ m2.
Proof.
  revert m1. induction m2 as [|[k v] m2 IH]; simpl; intros m1 Hnd.
  - by rewrite app_nil_r.
  - rewrite keys_set_notin.
    + rewrite IH; rewrite <- app_assoc; done.
    + unfold keys in Hnd. rewrite map_app in Hnd. simpl in Hnd.
      apply NoDup_app in Hnd as (_ & Hd & _). intros Hin.
      apply (Hd k Hin). apply elem_of_cons. by left.
Qed.

Lemma keys_fold_set_in es m :
  Forall (λ e, e.1 ∈ keys m) es →
  keys (fold_left (λ m e, set e.1 e.2 m) es m) = keys m.
Proof.
  revert m. induction es as [|[k v] es IH]; simpl; intros m Hes; [done|].
  apply Forall_cons in Hes as [Hk Hes]. simpl in Hk.
  rewrite IH; rewrite keys_set_in; done.
Qed.

Lemma elem_keys_get k m : k ∈ keys m ↔ is_Some (get k m).
Proof.
  rewrite <- not_eq_None_Some, get_None.
  destruct (decide (k ∈ keys m)); naive_solver.
Qed.

(** Setting again the entries a map was built from changes nothing. *)
Lemma of_entries_again es1 es2 :
  fold_left (λ m e, set e.1 e.2 m) es2 (of_entries (es1 ++ es2)) =
  of_entries (es1 ++ es2).
Proof.
  apply ext.
  - apply fold_set_NoDup, of_entries_NoDup.
  - apply keys_fold_set_in, Forall_forall. intros [k v] Hin. simpl.
    apply elem_keys_get. rewrite get_of_entries, last_with_app.
    destruct (last_with k es2) eqn:Hl; [done|].
    apply last_with_None in Hl. exfalso. apply Hl.
    apply list_elem_of_fmap. by exists (k, v).
  - intros k. rewrite get_fold_set, get_of_entries, last_with_app.
    by destruct (last_with k es2).
Qed.
End Facts.
End JsMapFacts.

(** ** Reconciliation *)

Module IngestionFacts.
Import JsMap JsMapFacts Ingestion.

Lemma uniqueSymbols_eq l : uniqueSymbols l = values (of_entries (keyed l)).
Proof. reflexivity. Qed.

Lemma handleBulkUpload_eq ingestedSymbols symbols :
  handleBulkUpload ingestedSymbols symbols
  = uniqueSymbols (default [] ingestedSymbols ++ symbols).
Proof. reflexivity. Qed.

Lemma handleAddSymbol_eq ingestedSymbols s :
  handleAddSymbol ingestedSymbols s
  = uniqueSymbols (default [] ingestedSymbols ++ [s]).
Proof. reflexivity. Qed.

Lemma of_entries_keyed l :
  Forall (λ e, e.1 = symbolKey e.2) (of_entries (keyed l)).
Proof.
  apply fold_set_keyed; [|done].
  apply Forall_forall. intros [k v] Hin.
  apply list_elem_of_fmap in Hin as (x & Hx & _). by simplify_eq.
Qed.

Lemma keys_uniqueSymbols l :
  map symbolKey (uniqueSymbols l) = keys (of_entries (keyed l)).
Proof.
  rewrite uniqueSymbols_eq. pose proof (of_entries_keyed l) as Hk.
  induction (of_entries (keyed l)) as [|[k v] m IH]; simpl; [done|].
  apply Forall_cons in Hk as [Hk Hm]. simpl in Hk. rewrite IH by done.
  by rewrite Hk.
Qed.

Lemma NoDup_symbolKey l : NoDup (map symbolKey (uniqueSymbols l)).
Proof. rewrite keys_uniqueSymbols. apply of_entries_NoDup. Qed.

(** Equal identities give equal keys, so distinct keys give distinct
    identities. *)
Lemma identity_symbolKey x y : identity x = identity y → symbolKey x = symbolKey y.
Proof. unfold identity, symbolKey. intros [= -> ->]. done. Qed.

Lemma NoDup_identity l : NoDup (map identity (uniqueSymbols l)).
Proof.
  pose proof (NoDup_symbolKey l) as Hnd.
  induction (uniqueSymbols l) as [|x r IH]; simpl in *; [apply NoDup_nil_2|].
  apply NoDup_cons in Hnd as [Hx Hnd]. apply NoDup_cons. split; [|by apply IH].
  intros Hin. apply Hx.
  apply list_elem_of_fmap in Hin as (y & Hy & Hin).
  apply list_elem_of_fmap. exists y. split; [|done].
  by apply identity_symbolKey.
Qed.

(** An entry is kept exactly when it is the last one with its key. *)
Lemma elem_of_uniqueSymbols e l :
  e ∈ uniqueSymbols l ↔
  ∃ pre post, l = pre ++ e :: post ∧
              Forall (λ x, symbolKey x ≠ symbolKey e) post.
Proof.
  transitivity (get (symbolKey e) (of_entries (keyed l)) = Some e).
  2:{ rewrite get_of_entries. unfold keyed.
      rewrite (last_with_keyed symbolKey (symbolKey e) e l).
      split; [by intros [_ ?]|by intros ?]. }
  rewrite uniqueSymbols_eq.
  split.
  - intros Hin. apply list_elem_of_fmap in Hin as ([k v] & -> & Hin). simpl.
    pose proof (of_entries_keyed l) as Hk. rewrite Forall_forall in Hk.
    specialize (Hk _ Hin). simpl in Hk. subst k.
    apply elem_get_Some; [apply of_entries_NoDup|done].
  - intros Hg. apply get_Some_elem in Hg.
    apply list_elem_of_fmap. by exists (symbolKey e, e).
Qed.

Lemma uniqueSymbols_again l b :
  uniqueSymbols (uniqueSymbols (l ++ b) ++ b) = uniqueSymbols (l ++ b).
Proof.
  rewrite !uniqueSymbols_eq. f_equal.
  unfold keyed at 1. rewrite map_app. fold (keyed b).
  change (map _ (values ?m)) with (map (λ x, (symbolKey x, x)) (values m)).
  rewrite (keyed_values symbolKey) by apply of_entries_keyed.
  unfold of_entries at 1. rewrite fold_left_app.
  rewrite (fold_set_fresh _ []) by apply of_entries_NoDup. simpl.
  unfold keyed at 2 3. rewrite map_app. apply of_entries_again.
Qed.

(** At most one entry for any given identity. *)
Lemma NoDup_at_most_one {A K} `{EqDecision K} (f : A → K) (l : list A) k :
  NoDup (map f l) →
  (length (List.filter (λ x, bool_decide (f x = k)) l) ≤ 1)%nat.
Proof.
  induction l as [|x l IH]; simpl; intros Hnd; [lia|].
  apply NoDup_cons in Hnd as [Hx Hnd]. specialize (IH Hnd).
  case_bool_decide as Hk; simpl; [|lia].
  assert (List.filter (λ x, bool_decide (f x = k)) l = []) as ->; [|simpl; lia].
  destruct (List.filter _ l) as [|y r] eqn:Hf; [done|]. exfalso.
  assert (In y (List.filter (λ x, bool_decide (f x = k)) l)) as Hy
    by (rewrite Hf; by left).
  apply filter_In in Hy as [Hy Hky]. apply bool_decide_eq_true in Hky.
  apply Hx. apply list_elem_of_fmap. exists y. split; [congruence|].
  by apply list_elem_of_In.
Qed.

End IngestionFacts.

Section ReconciliationClaims.
Import Ingestion IngestionFacts.


(** C2. After a bulk upload or a manual add, the resulting ingestion list
    holds at most one entry per (symbol, exchange), whatever the current
    list and the batch are. *)
Theorem merge_unique_per_identity
    (ingestedSymbols : option (list IngestedSymbol))
    (symbols : list SymbolUpdate) (s : IngestedSymbol) (k : string * string) :
  (length (List.filter (λ x, bool_decide (identity x = k))
             (handleBulkUpload ingestedSymbols symbols)) ≤ 1)%nat ∧
  (length (List.filter (λ x, bool_decide (identity x = k))
             (handleAddSymbol ingestedSymbols s)) ≤ 1)%nat ∧
  NoDup (map identity (handleBulkUpload ingestedSymbols symbols)) ∧
  NoDup (map identity (handleAddSymbol ingestedSymbols s)).
Proof.
  rewrite handleBulkUpload_eq, handleAddSymbol_eq.
  split_and!; try apply NoDup_at_most_one; apply NoDup_identity.
Qed.

(** C3. Merging a batch and then merging the same batch into the result
    gives the result of the first merge again, entry for entry: nothing is
    added, nothing is duplicated. *)
Theorem reconcile_idempotent
    (ingestedSymbols : option (list IngestedSymbol)) (symbols : list SymbolUpdate)
    (s : IngestedSymbol) :
  let once := handleBulkUpload ingestedSymbols symbols in
  let twice := handleBulkUpload (Some once) symbols in
  twice = once ∧
  length twice = length once ∧
  NoDup (map symbolKey twice) ∧
  (∀ e, e ∈ twice ↔ e ∈ once) ∧
  handleAddSymbol (Some (handleAddSymbol ingestedSymbols s)) s
  = handleAddSymbol ingestedSymbols s.
Proof.
  intros once twice.
  assert (twice = once) as Heq.
  { subst once twice. rewrite !handleBulkUpload_eq. simpl.
    apply uniqueSymbols_again. }
  split_and!.
  - done.
  - by rewrite Heq.
  - subst twice. rewrite handleBulkUpload_eq. apply NoDup_symbolKey.
  - by rewrite Heq.
  - rewrite !handleAddSymbol_eq. simpl. apply uniqueSymbols_again.
Qed.

(** C10. The dedup key is the text symbol, "-", exchange. The entries
    (symbol "A", exchange "B-C") and (symbol "A-B", exchange "C") differ in
    symbol and exchange and have the same key "A-B-C"; merging a batch with
    both, in that order, into any list keeps the second and drops the
    first. *)
Theorem symbolKey_collision_drops_entry
    (d1 t1 d2 t2 : option string) (ingestedSymbols : option (list IngestedSymbol)) :
  let x := mkSymbol "A" "B-C" d1 t1 in
  let y := mkSymbol "A-B" "C" d2 t2 in
  let merged := handleBulkUpload ingestedSymbols [x; y] in
  (∀ item, symbolKey item = (symbol item +:+ "-" +:+ exchange item)) ∧
  identity x ≠ identity y ∧
  symbolKey x = symbolKey y ∧
  y ∈ merged ∧ (x ∉ merged) ∧
  (∀ e, e ∈ merged → symbolKey e = "A-B-C" → e = y) ∧
  handleBulkUpload None [x; y] = [y].
Proof.
  intros x y merged.
  assert (∀ e, e ∈ merged → symbolKey e = "A-B-C" → e = y) as Honly.
  { intros e He Hk. subst merged. rewrite handleBulkUpload_eq in He.
    apply elem_of_uniqueSymbols in He as (pre & post & Hl & Hp).
    replace (default [] ingestedSymbols ++ [x; y])
      with ((default [] ingestedSymbols ++ [x]) ++ [y]) in Hl
      by (by rewrite <- app_assoc).
    destruct post as [|p post _] using rev_ind.
    - apply app_inj_tail in Hl as [_ Hl]. done.
    - exfalso.
      replace (pre ++ e :: post ++ [p]) with ((pre ++ e :: post) ++ [p]) in Hl
        by (by rewrite <- app_assoc).
      apply app_inj_tail in Hl as [_ <-].
      apply Forall_app in Hp as [_ Hp]. apply Forall_cons in Hp as [Hp _].
      apply Hp. by rewrite Hk. }
  split_and!; try done.
  - subst merged. rewrite handleBulkUpload_eq.
    apply elem_of_uniqueSymbols.
    exists (default [] ingestedSymbols ++ [x]), [].
    split; [by rewrite <- app_assoc|done].
  - intros Hx. specialize (Honly x Hx eq_refl). discriminate Honly.
Qed.

End ReconciliationClaims.

(** ** Strings and the bulk-upload parser *)

Module ParseFacts.
Import JsString BulkUpload.

Lemma split_nonempty sep s : split sep s ≠ [].
Proof.
  destruct s as [|c s]; simpl; [done|].
  case_decide; [done|]. by destruct (split sep s).
Qed.

(** What [split] returns first is the text up to the first separator. *)
Lemma split_inv sep s piece pieces :
  split sep s = piece :: pieces →
  includes sep piece = false ∧
  ((pieces = [] ∧ s = piece) ∨
   (∃ s', s = piece +:+ String sep s' ∧ pieces = split sep s')).
Proof.
  revert piece pieces. induction s as [|c s IH]; simpl; intros piece pieces Hs.
  - injection Hs as <- <-. split; [done|by left].
  - case_decide as Hc.
    + injection Hs as <- <-. subst c. split; [done|]. right. by exists s.
    + destruct (split sep s) as [|p ps] eqn:Hsp; [by apply split_nonempty in Hsp|].
      injection Hs as <- <-. destruct (IH p ps eq_refl) as [Hp Hcase].
      split.
      * simpl. rewrite Hp. by rewrite bool_decide_eq_false_2.
      * destruct Hcase as [[-> ->]|(s' & -> & ->)]; [by left|].
        right. by exists s'.
Qed.

Lemma split_single sep piece :
  includes sep piece = false → split sep piece = [piece].
Proof.
  induction piece as [|c p IH]; simpl; [done|]. intros Hi.
  apply orb_false_iff in Hi as [Hc Hp]. apply bool_decide_eq_false in Hc.
  rewrite decide_False by done. by rewrite IH.
Qed.

Lemma split_piece sep piece s' :
  includes sep piece = false →
  split sep (piece +:+ String sep s') = piece :: split sep s'.
Proof.
  induction piece as [|c p IH]; simpl; intros Hi.
  - by rewrite decide_True.
  - apply orb_false_iff in Hi as [Hc Hp]. apply bool_decide_eq_false in Hc.
    rewrite decide_False by done. by rewrite IH.
Qed.

(** The first two fields of a line: the text before the first comma, and
    the text from there to the second comma or to the end of the line. *)
Lemma split_two_fields sep line f0 f1 :
  (∃ rest, split sep line = f0 :: f1 :: rest) ↔
  includes sep f0 = false ∧ includes sep f1 = false ∧
  (line = f0 +:+ String sep f1 ∨
   ∃ more, line = f0 +:+ String sep (f1 +:+ String sep more)).
Proof.
  split.
  - intros (rest & Hs). apply split_inv in Hs as [H0 [[? _]|(s' & -> & Hs)]]; [done|].
    symmetry in Hs. apply split_inv in Hs as [H1 [[_ ->]|(more & -> & _)]].
    + split_and!; [done..|by left].
    + split_and!; [done..|]. right. by exists more.
  - intros (H0 & H1 & [->|(more & ->)]).
    + exists []. rewrite split_piece by done. by rewrite split_single.
    + exists (split sep more). rewrite split_piece by done.
      by rewrite split_piece.
Qed.

Lemma truthy_Some s : truthy (Some s) = true ↔ s ≠ "".
Proof. destruct s; simpl; split; done. Qed.

(** The callback only ever appends, and what it appends depends on the
    line alone. *)
Lemma pushLine_app symbols line : pushLine symbols line = symbols ++ pushLine [] line.
Proof.
  unfold pushLine. cbv zeta.
  destruct (map trim (split comma line) !! 0%nat) as [sym|];
    [|by rewrite app_nil_r].
  destruct (map trim (split comma line) !! 1%nat) as [exch|];
    [|by rewrite app_nil_r].
  destruct (truthy (Some sym) && truthy (Some exch)); [done|by rewrite app_nil_r].
Qed.

Lemma fold_pushLine lines symbols :
  fold_left pushLine lines symbols = symbols ++ flat_map (pushLine []) lines.
Proof.
  revert symbols. induction lines as [|line lines IH]; simpl; intros symbols.
  - by rewrite app_nil_r.
  - rewrite IH, pushLine_app. by rewrite <- app_assoc.
Qed.

Lemma parseSymbols_flat_map text :
  parseSymbols text = flat_map (pushLine []) (split LF (trim text)).
Proof. unfold parseSymbols. cbv zeta. by rewrite fold_pushLine. Qed.

Lemma pushLine_length line : (length (pushLine [] line) ≤ 1)%nat.
Proof.
  unfold pushLine. cbv zeta.
  destruct (map trim (split comma line) !! 0%nat) as [sym|]; [|simpl; lia].
  destruct (map trim (split comma line) !! 1%nat) as [exch|]; [|simpl; lia].
  destruct (truthy (Some sym) && truthy (Some exch)); simpl; lia.
Qed.

Lemma elem_of_pushLine e line :
  e ∈ pushLine [] line ↔
  ∃ f0 f1 rest, split comma line = f0 :: f1 :: rest ∧
                trim f0 ≠ "" ∧ trim f1 ≠ "" ∧
                e = mkSymbol (toUpperCase (trim f0)) (trim f1) None None.
Proof.
  unfold pushLine. cbv zeta.
  destruct (split comma line) as [|f0 [|f1 rest]] eqn:Hs; simpl.
  - split; [by intros ?%elem_of_nil|]. by intros (?&?&?&?&_).
  - split; [by intros ?%elem_of_nil|]. by intros (?&?&?&?&_).
  - destruct (trim f0) as [|a0 t0] eqn:H0; simpl.
    { split; [by intros ?%elem_of_nil|].
      intros (?&?&?&Heq&Hne&_). injection Heq as <- <- <-. congruence. }
    destruct (trim f1) as [|a1 t1] eqn:H1; simpl.
    { split; [by intros ?%elem_of_nil|].
      intros (?&?&?&Heq&_&Hne&_). injection Heq as <- <- <-. congruence. }
    split.
    + intros ->%list_elem_of_singleton. exists f0, f1, rest.
      rewrite H0, H1. done.
    + intros (?&?&?&Heq&_&_&->). injection Heq as <- <- <-.
      rewrite H0, H1. by apply list_elem_of_singleton.
Qed.

End ParseFacts.

Section ParseClaims.
Import JsString BulkUpload ParseFacts.

(** C4, as stated, at a line with two commas: splitting on the first comma
    would make "NASDAQ,US" the exchange code, [parseSymbols] makes it
    "NASDAQ". *)
Lemma parseSymbols_not_first_comma :
  parseSymbols "AAPL,NASDAQ,US" = [mkSymbol "AAPL" "NASDAQ" None None] ∧
  parseSymbols_first_comma "AAPL,NASDAQ,US" = [mkSymbol "AAPL" "NASDAQ,US" None None] ∧
  ¬ (∀ text, parseSymbols text = parseSymbols_first_comma text).
Proof.
  split_and!; [by vm_compute..|].
  intros H. specialize (H "AAPL,NASDAQ,US"). vm_compute in H. discriminate H.
Qed.

(** C4, amended. For every input text, [parseSymbols] cuts the trimmed text
    into lines and every line at each comma; the symbol code is the field
    before the first comma and the exchange code the field between the first
    comma and the second (or the end of the line), further fields being
    ignored. Both are trimmed and the symbol code is upper-cased; a line
    yields an entry exactly when both trimmed fields are non-empty, and any
    other line is dropped without an error. The text of the example parses
    to AAPL/NASDAQ and MSFT/NASDAQ. *)
Theorem parseSymbols_first_two_fields (text : string) :
  (∀ e, e ∈ parseSymbols text ↔
     ∃ line symbolCode exchangeCode,
       line ∈ split LF (trim text) ∧
       includes comma symbolCode = false ∧
       includes comma exchangeCode = false ∧
       (line = (symbolCode +:+ "," +:+ exchangeCode) ∨
        ∃ more, line = (symbolCode +:+ "," +:+ exchangeCode +:+ "," +:+ more)) ∧
       trim symbolCode ≠ "" ∧ trim exchangeCode ≠ "" ∧
       e = mkSymbol (toUpperCase (trim symbolCode)) (trim exchangeCode) None None) ∧
  (length (parseSymbols text) ≤ length (split LF (trim text)))%nat ∧
  parseSymbols ("AAPL,NASDAQ" +:+ String LF "badline" +:+ String LF "MSFT, NASDAQ "
                +:+ String LF "")
  = [mkSymbol "AAPL" "NASDAQ" None None; mkSymbol "MSFT" "NASDAQ" None None] ∧
  parseSymbols ("msft , nasdaq,extra" +:+ String LF ",NYSE" +:+ String LF "GS,")
  = [mkSymbol "MSFT" "nasdaq" None None].
Proof.
  rewrite parseSymbols_flat_map. split_and!.
  - intros e. rewrite list_elem_of_In, in_flat_map. split.
    + intros (line & Hline & He). apply list_elem_of_In in Hline, He.
      apply elem_of_pushLine in He as (f0 & f1 & rest & Hs & H0 & H1 & ->).
      exists line, f0, f1.
      destruct (proj1 (split_two_fields comma line f0 f1)) as (Hi0 & Hi1 & Hshape);
        [by exists rest|].
      split_and!; try done.
    + intros (line & f0 & f1 & Hline & Hi0 & Hi1 & Hshape & H0 & H1 & ->).
      exists line. rewrite <- !list_elem_of_In. split; [done|].
      apply elem_of_pushLine.
      destruct (proj2 (split_two_fields comma line f0 f1)) as (rest & Hs);
        [by split_and!|].
      by exists f0, f1, rest.
  - induction (split LF (trim text)) as [|line lines IH]; simpl; [lia|].
    rewrite length_app. pose proof (pushLine_length line). lia.
  - by vm_compute.
  - by vm_compute.
Qed.

End ParseClaims.

(** ** Token store, API client and auth gate *)

Module GateFacts.
Import JsString Auth Api WithAuth.

Lemma getToken_removeToken e : getToken (removeToken e) = None.
Proof.
  unfold getToken, removeToken. destruct (window e) as [ls|] eqn:Hw; simpl.
  - apply lookup_delete_eq.
  - by rewrite Hw.
Qed.

Lemma isAuthenticated_token e :
  isAuthenticated e = true ↔ ∃ t, getToken e = Some t ∧ t ≠ "".
Proof.
  unfold isAuthenticated. cbv zeta. destruct (getToken e) as [[|a t]|]; simpl.
  - split; [done|]. by intros (? & [= <-] & ?).
  - split; [|done]. intros _. by eexists.
  - split; [done|]. by intros (? & ? & _).
Qed.

(** What the interceptor leaves in the Authorization header of a request
    that came without one. *)
Lemma interceptor_header e config :
  headers config !! "Authorization" = None →
  headers (requestInterceptor e config) !! "Authorization" =
  match getToken e with
  | Some t => if truthy (Some t) then Some ("Bearer " +:+ t) else None
  | None => None
  end.
Proof.
  intros Hc. unfold requestInterceptor. cbv zeta.
  destruct (getToken e) as [t|]; [|done].
  destruct (truthy (Some t)); [|done]. simpl. apply lookup_insert_eq.
Qed.

Lemma request_spec backend config w :
  request backend config w =
  (backend (requestInterceptor (env w) config),
   mkWorld (env w) (sent w ++ [requestInterceptor (env w) config]) (pushed w)).
Proof. reflexivity. Qed.

End GateFacts.

Section GateClaims.
Import JsString Auth Api WithAuth GateFacts.

(** The gate at work: on the login route nothing is verified; a token the
    backend accepts lets the wrapped content through; a token it rejects is
    removed. *)
Example gate_runs :
  render (verifyToken (λ _, Err NetworkError) "/login"
            (mount (mkWorld (mkEnv (Some ∅)) [] []))) = Wrapped ∧
  render (verifyToken (λ _, Ok (UserData 1 "admin")) "/"
            (mount (mkWorld (mkEnv (Some {["authToken" := "valid"]})) [] [])))
  = Wrapped ∧
  map url (sent (world (verifyToken (λ _, Ok (UserData 1 "admin")) "/"
            (mount (mkWorld (mkEnv (Some {["authToken" := "valid"]})) [] [])))))
  = ["/users/me/"] ∧
  getToken (env (world (verifyToken (λ _, Err (StatusError 401)) "/"
            (mount (mkWorld (mkEnv (Some {["authToken" := "stale"]})) [] [])))))
  = None.
Proof. by vm_compute. Qed.

(** C5. When the identity check of the gate fails, with whatever error, the
    stored token is removed and the router is sent to the login route, and
    the gate keeps showing the loading screen: the wrapped content is not
    rendered. *)
Theorem verification_failure_clears_and_redirects
    (backend : Backend) (pathname : string) (s : Wrapper) (error : AxiosError) :
  pathname ≠ "/login" →
  isAuthenticated (env (world s)) = true →
  isLoading s = true →
  (getCurrentUser backend (world s)).1 = Err error →
  let s' := verifyToken backend pathname s in
  getToken (env (world s')) = None ∧
  isAuthenticated (env (world s')) = false ∧
  pushed (world s') = pushed (world s) ++ ["/login"] ∧
  isLoading s' = true ∧
  render s = Authenticating ∧ render s' = Authenticating.
Proof.
  intros Hpath Hauth Hload Herr s'. subst s'. unfold verifyToken. cbv zeta.
  rewrite decide_False by done.
  unfold isAuthenticated in Hauth. cbv zeta in Hauth. rewrite Hauth. simpl negb.
  cbv iota.
  destruct (getCurrentUser backend (world s)) as [r w] eqn:Hcall.
  simpl in Herr. subst r. unfold getCurrentUser, api_get in Hcall.
  rewrite request_spec in Hcall. injection Hcall as _ <-. simpl.
  unfold render, isAuthenticated. cbv zeta. rewrite getToken_removeToken, Hload.
  done.
Qed.

Lemma verification_failure_clears_and_redirects_witness :
  let w := mkWorld (mkEnv (Some {["authToken" := "expired"]})) [] [] in
  let s' := verifyToken (λ _, Err (StatusError 401)) "/ingestion" (mount w) in
  getToken (env (world s')) = None ∧
  isAuthenticated (env (world s')) = false ∧
  pushed (world s') = [] ++ ["/login"] ∧
  isLoading s' = true ∧
  render (mount w) = Authenticating ∧ render s' = Authenticating.
Proof.
  intros w.
  apply (verification_failure_clears_and_redirects
           (λ _, Err (StatusError 401)) "/ingestion" (mount w) (StatusError 401)).
  - discriminate.
  - vm_compute. reflexivity.
  - reflexivity.
  - vm_compute. reflexivity.
Defined.

(** C6. On a protected route with no stored token, the gate pushes the
    login route at once: no request leaves the client, nothing else changes,
    and the gate shows the loading screen before and after. *)
Theorem missing_token_redirects_without_request
    (backend : Backend) (pathname : string) (s : Wrapper) :
  pathname ≠ "/login" →
  isAuthenticated (env (world s)) = false →
  isLoading s = true →
  let s' := verifyToken backend pathname s in
  sent (world s') = sent (world s) ∧
  pushed (world s') = pushed (world s) ++ ["/login"] ∧
  env (world s') = env (world s) ∧
  render s = Authenticating ∧ render s' = Authenticating.
Proof.
  intros Hpath Hauth Hload s'. subst s'. unfold verifyToken. cbv zeta.
  rewrite decide_False by done.
  unfold isAuthenticated in Hauth. cbv zeta in Hauth. rewrite Hauth. simpl.
  unfold render. simpl. by rewrite Hload.
Qed.

Lemma missing_token_redirects_without_request_witness :
  let w := mkWorld (mkEnv (Some ∅)) [] [] in
  let s' := verifyToken (λ _, Ok OpaqueData) "/settings" (mount w) in
  sent (world s') = [] ∧
  pushed (world s') = [] ++ ["/login"] ∧
  env (world s') = mkEnv (Some ∅) ∧
  render (mount w) = Authenticating ∧ render s' = Authenticating.
Proof.
  intros w.
  apply (missing_token_redirects_without_request (λ _, Ok OpaqueData) "/settings" (mount w)).
  - discriminate.
  - vm_compute. reflexivity.
  - reflexivity.
Defined.

(** C8. Whatever endpoint function of the API client is called, exactly one
    request leaves, it is the caller's request as the interceptor left it,
    and it carries the header Authorization: Bearer <token> when the token
    store holds a token, and no Authorization header when it holds none. *)
Theorem every_request_passes_the_interceptor
    (backend : Backend) (ep : Endpoint) (w : World) :
  let out := call backend ep w in
  ∃ config,
    sent out.2 = sent w ++ [requestInterceptor (env w) config] ∧
    out.1 = backend (requestInterceptor (env w) config) ∧
    headers config !! "Authorization" = None ∧
    headers (requestInterceptor (env w) config) !! "Authorization" =
      (if isAuthenticated (env w)
       then (λ t, "Bearer " +:+ t) <$> getToken (env w) else None) ∧
    (is_Some (headers (requestInterceptor (env w) config) !! "Authorization")
     ↔ isAuthenticated (env w) = true).
Proof.
  intros out.
  assert (∀ config, headers config !! "Authorization" = None →
    out = request backend config w →
    sent out.2 = sent w ++ [requestInterceptor (env w) config] ∧
    out.1 = backend (requestInterceptor (env w) config) ∧
    headers config !! "Authorization" = None ∧
    headers (requestInterceptor (env w) config) !! "Authorization" =
      (if isAuthenticated (env w)
       then (λ t, "Bearer " +:+ t) <$> getToken (env w) else None) ∧
    (is_Some (headers (requestInterceptor (env w) config) !! "Authorization")
     ↔ isAuthenticated (env w) = true)) as Hreq.
  { intros config Hc ->. rewrite request_spec. simpl.
    rewrite (interceptor_header _ _ Hc). unfold isAuthenticated. cbv zeta.
    destruct (getToken (env w)) as [[|a t]|]; simpl.
    all: split_and!; try done.
    all: split; try done.
    all: by intros [? ?]. }
  subst out.
  destruct ep; simpl; eexists; apply Hreq; try reflexivity; done.
Qed.

End GateClaims.

(** ** Query cache and hooks *)


Module CacheFacts.
Import Api ReactQuery Hooks CacheSpec GateFacts.

Lemma lookup_invalidateQueries (key : QueryKey) (c : QueryClient) (k : QueryKey) :
  invalidateQueries key c !! k =
  (λ q, if bool_decide (key `prefix_of` k)
        then mkQuery (queryData q) true else q) <$> c !! k.
Proof.
  unfold invalidateQueries. rewrite map_lookup_imap.
  by destruct (c !! k).
Qed.

Lemma invalidateQueries_exactly (key : QueryKey) (c : QueryClient) :
  invalidated_exactly key c (invalidateQueries key c).
Proof.
  split_and!.
  - intros k q Hk Hp. rewrite lookup_invalidateQueries, Hk. simpl.
    by rewrite bool_decide_eq_true_2.
  - intros k Hp. rewrite lookup_invalidateQueries.
    destruct (c !! k); simpl; [|done]. by rewrite bool_decide_eq_false_2.
  - intros k Hk. by rewrite lookup_invalidateQueries, Hk.
Qed.

(** An enabled query fetches once its own key was invalidated. *)
Lemma fetches_invalidated (o : QueryOptions) (c : QueryClient) :
  enabled o = true → fetches o (invalidateQueries (queryKey o) c) = true.
Proof.
  intros He. unfold fetches. rewrite He, lookup_invalidateQueries. simpl.
  destruct (c !! queryKey o) as [q|]; simpl; [|done].
  rewrite bool_decide_eq_true_2 by done. simpl.
  by destruct (queryData q).
Qed.

(** A query that fetches through the API client sends one request. *)
Lemma read_fetching_sends (backend : Backend) (config : RequestConfig)
    (o : QueryOptions) (c : QueryClient) (w : World) :
  queryFn o = request backend config → fetches o c = true →
  ∃ config', sent (read o c w).2 = sent w ++ [config'].
Proof.
  intros Hfn Hf. unfold read. rewrite Hf, Hfn, request_spec.
  exists (requestInterceptor (env w) config).
  by destruct (backend _).
Qed.

Lemma settles_invalidating {V} (backend : Backend) (fn : V → RequestConfig)
    (v : V) (o : QueryOptions) (config : RequestConfig)
    (c : QueryClient) (w : World) :
  enabled o = true → queryFn o = request backend config →
  settles backend
    (mkMutationOptions (λ v, request backend (fn v))
       (invalidateQueries (queryKey o))) v (fn v) (queryKey o) o c w.
Proof.
  intros He Hfn. unfold settles, mutateAsync. cbv zeta. simpl.
  destruct (backend (requestInterceptor (env w) (fn v))); [|done].
  split_and!.
  - done.
  - apply invalidateQueries_exactly.
  - done.
  - by apply fetches_invalidated.
  - eapply read_fetching_sends; [done|]. by apply fetches_invalidated.
  - intros d Hd. unfold read. rewrite fetches_invalidated by done.
    destruct (queryFn o _) as [r w']. simpl in Hd. by subst r.
Qed.

End CacheFacts.

Section CacheClaims.
Import Api ReactQuery Hooks CacheSpec CacheFacts.

(** C9. Adding a symbol, removing a symbol and replacing the list each
    invalidate, when the backend accepts their request, the queries under
    the key ["ingestedSymbols"] and nothing else; writing the system
    configuration does so for ["systemConfig"]. The mutation then resolves
    with the backend's answer, and the next read of the key sends its
    request again and returns the fresh answer. When the backend refuses
    the request the mutation rejects and the cache is as it was. The
    ingestion mutations leave the cached system configuration and the
    cached searches alone. On a cache holding a fetched ingestion list, a
    read does not fetch before an accepted add and does after it, and does
    not after a refused one. *)
Theorem mutations_invalidate_declared_keys
    (backend : Backend) (c : QueryClient) (w : World)
    (symbol : IngestedSymbol) (symbols : list IngestedSymbol) (config : SystemConfig) :
  settles backend (useAddSymbol backend) symbol (Requests.addSymbolRequest symbol)
    [KString "ingestedSymbols"] (useIngestedSymbols backend) c w ∧
  settles backend (useRemoveSymbol backend) symbol (Requests.removeSymbolRequest symbol)
    [KString "ingestedSymbols"] (useIngestedSymbols backend) c w ∧
  settles backend (useSetSymbols backend) symbols (Requests.setSymbolsRequest symbols)
    [KString "ingestedSymbols"] (useIngestedSymbols backend) c w ∧
  settles backend (useSetSystemConfig backend) config
    (Requests.setSystemConfigRequest config)
    [KString "systemConfig"] (useSystemConfig backend) c w ∧
  invalidateQueries [KString "ingestedSymbols"] c !! [KString "systemConfig"]
    = c !! [KString "systemConfig"] ∧
  invalidateQueries [KString "systemConfig"] c !! [KString "ingestedSymbols"]
    = c !! [KString "ingestedSymbols"] ∧
  (∀ params, invalidateQueries [KString "ingestedSymbols"] c
               !! [KString "symbols"; KParams params]
             = c !! [KString "symbols"; KParams params]) ∧
  (let cached : QueryClient :=
     {[ [KString "ingestedSymbols"] := mkQuery (Some (SymbolsData [symbol])) false ]} in
   let accepted := mutateAsync (useAddSymbol (λ _, Ok OpaqueData)) symbol cached w in
   let refused := mutateAsync (useAddSymbol (λ _, Err NetworkError)) symbol cached w in
   fetches (useIngestedSymbols backend) cached = false ∧
   accepted.1.1 = Ok OpaqueData ∧
   accepted.1.2 !! [KString "ingestedSymbols"]
     = Some (mkQuery (Some (SymbolsData [symbol])) true) ∧
   fetches (useIngestedSymbols backend) accepted.1.2 = true ∧
   refused.1.1 = Err NetworkError ∧
   refused.1.2 = cached ∧
   fetches (useIngestedSymbols backend) refused.1.2 = false).
Proof.
  split_and!.
  - apply (settles_invalidating backend Requests.addSymbolRequest
             symbol (useIngestedSymbols backend)
             (mkRequest GET "/get_ingestion_symbols/" ∅ None NoBody)); done.
  - apply (settles_invalidating backend Requests.removeSymbolRequest
             symbol (useIngestedSymbols backend)
             (mkRequest GET "/get_ingestion_symbols/" ∅ None NoBody)); done.
  - apply (settles_invalidating backend Requests.setSymbolsRequest
             symbols (useIngestedSymbols backend)
             (mkRequest GET "/get_ingestion_symbols/" ∅ None NoBody)); done.
  - apply (settles_invalidating backend Requests.setSystemConfigRequest
             config (useSystemConfig backend)
             (mkRequest GET "/get_system_config/" ∅ None NoBody)); done.
  - apply invalidateQueries_exactly. intros [k Hk]. simpl in Hk. discriminate Hk.
  - apply invalidateQueries_exactly. intros [k Hk]. simpl in Hk. discriminate Hk.
  - intros params. apply invalidateQueries_exactly.
    intros [k Hk]. simpl in Hk. discriminate Hk.
  - cbv zeta. unfold mutateAsync. simpl.
    assert (∀ b, (invalidateQueries [KString "ingestedSymbols"]
                    {[ [KString "ingestedSymbols"]
                       := mkQuery (Some (SymbolsData [symbol])) b ]} : QueryClient)
                 !! [KString "ingestedSymbols"]
                 = Some (mkQuery (Some (SymbolsData [symbol])) true)) as Hinv.
    { intros b. rewrite lookup_invalidateQueries, lookup_singleton_eq.
      reflexivity. }
    unfold fetches. simpl. rewrite Hinv, lookup_singleton_eq. simpl. done.
Qed.

End CacheClaims.

(** ** Symbol search *)

Module SearchFacts.
Import Api ReactQuery Hooks SymbolSearch GateFacts.

Section Facts.
Variable backend : Backend.

Lemma render_state now v delay d :
  UseDebounce.state (UseDebounce.render now v delay d) = UseDebounce.state d.
Proof. unfold UseDebounce.render. by case_decide. Qed.

Lemma render_previousValue now v delay d :
  UseDebounce.previousValue (UseDebounce.render now v delay d) = v.
Proof. unfold UseDebounce.render. by case_decide. Qed.

(** A disabled query reads without fetching. *)
Lemma read_disabled (o : QueryOptions) (c : QueryClient) (w : World) :
  enabled o = false → read o c w = ((c !! queryKey o) ≫= queryData, c, w).
Proof. intros He. unfold read, fetches. by rewrite He. Qed.

(** What a read of the search query can do to the cache and the world. *)
Lemma read_search_cases (c : Component) :
  let o := query backend c in
  (read o (cache c) (world c)).1.2 = cache c
    ∧ (read o (cache c) (world c)).2 = world c
    ∧ fetches o (cache c) = false
  ∨ (∃ d, (read o (cache c) (world c)).1.2
            = <[queryKey o := mkQuery (Some d) false]> (cache c))
    ∧ searchEnabled c = true
  ∨ (read o (cache c) (world c)).1.2 = cache c ∧ searchEnabled c = true.
Proof.
  intros o. unfold read. destruct (fetches o (cache c)) eqn:Hf.
  - assert (searchEnabled c = true) as He.
    { unfold fetches in Hf. by apply andb_true_iff in Hf as [He _]. }
    destruct (queryFn o (world c)) as [r w'].
    destruct r as [d|e]; [right; left|right; right]; simpl; [|done].
    split; [by exists d|done].
  - left. done.
Qed.

Lemma debounced_rerender (before after : Component) :
  debouncedSearchString (rerender backend before after)
  = debouncedSearchString after.
Proof.
  unfold rerender. cbv zeta. case_decide.
  - unfold debouncedSearchString. simpl. apply render_state.
  - destruct (read _ _ _) as [[? c'] w']. unfold debouncedSearchString. simpl.
    apply render_state.
Qed.

Lemma searchString_rerender (before after : Component) :
  searchString (rerender backend before after) = searchString after
  ∧ UseDebounce.previousValue (debounce (rerender backend before after))
    = searchString after
  ∧ now (rerender backend before after) = now after.
Proof.
  unfold rerender. cbv zeta. case_decide.
  - simpl. by rewrite render_previousValue.
  - destruct (read _ _ _) as [[? c'] w']. simpl. by rewrite render_previousValue.
Qed.

(** A render with the debounced text at two characters or fewer sends
    nothing and leaves the cache alone. *)
Lemma rerender_disabled (before after : Component) :
  (String.length (debouncedSearchString after) ≤ 2)%nat →
  world (rerender backend before after) = world after
  ∧ cache (rerender backend before after) = cache after.
Proof.
  intros Hlen. unfold rerender. cbv zeta. case_decide; [done|].
  rewrite read_disabled; [done|]. simpl. unfold searchEnabled, debouncedSearchString.
  simpl. rewrite render_state. apply Nat.ltb_ge. exact Hlen.
Qed.

(** A render with unchanged query options sends nothing. *)
Lemma rerender_same_options (before after : Component) :
  debouncedSearchString after = debouncedSearchString before →
  exchange after = exchange before →
  securityType after = securityType before →
  world (rerender backend before after) = world after
  ∧ cache (rerender backend before after) = cache after.
Proof.
  intros Hd He Hs. unfold rerender. cbv zeta.
  rewrite decide_True; [done|].
  unfold query, searchEnabled, debouncedSearchString in *. simpl.
  rewrite render_state, Hd, He, Hs. done.
Qed.

Lemma rerender_short_keys (before after : Component) :
  short_keys_empty (cache after) →
  short_keys_empty (cache (rerender backend before after)).
Proof.
  intros Hinv. unfold rerender. cbv zeta. case_decide; [done|].
  set (after' := mk _ _ _ _ _ _ _).
  change (cache after) with (cache after'). change (world after) with (world after').
  destruct (read_search_cases after') as [(Hc & _)|[((d & Hc) & He)|(Hc & _)]];
    destruct (read _ _ _) as [[? c'] w']; simpl in *; subst c'; try done.
  intros params q s Hk Hs Hlen.
  destruct (decide (params = SearchParams.mk (Some (debouncedSearchString after'))
                      (Some (exchange after)) (Some (securityType after)))) as [->|Hne].
  - exfalso. simpl in Hs. injection Hs as <-.
    unfold searchEnabled in He. apply Nat.ltb_lt in He. lia.
  - rewrite lookup_insert_ne in Hk by congruence. by eapply Hinv.
Qed.
End Facts.
End SearchFacts.

Section SearchClaims.
Import Api ReactQuery Hooks SymbolSearch SearchFacts.

(** Three runs with a backend that answers every search with an empty
    list: "AA" never leaves the client; "AAP" has not left it after 499 ms
    and has after 500 ms; typing on restarts the wait. *)
Example search_two_characters :
  map params (sent (world (fold_left (λ c ev, step (λ _, Ok (SymbolsData [])) ev c)
    [SetSearchString "AA"; Elapse 500; Elapse 5000]
    (mount (λ _, Ok (SymbolsData [])) 0 ∅ (mkWorld (Auth.mkEnv (Some ∅)) [] [])))))
  = [].
Proof. by vm_compute. Qed.

Example search_three_characters :
  map params (sent (world (fold_left (λ c ev, step (λ _, Ok (SymbolsData [])) ev c)
    [SetSearchString "AAP"; Elapse 499]
    (mount (λ _, Ok (SymbolsData [])) 0 ∅ (mkWorld (Auth.mkEnv (Some ∅)) [] [])))))
  = [] ∧
  map params (sent (world (fold_left (λ c ev, step (λ _, Ok (SymbolsData [])) ev c)
    [SetSearchString "AAP"; Elapse 499; Elapse 1]
    (mount (λ _, Ok (SymbolsData [])) 0 ∅ (mkWorld (Auth.mkEnv (Some ∅)) [] [])))))
  = [Some (SearchParams.mk (Some "AAP") (Some "") (Some ""))].
Proof. by vm_compute. Qed.

Example search_typing_on :
  map params (sent (world (fold_left (λ c ev, step (λ _, Ok (SymbolsData [])) ev c)
    [SetSearchString "AAP"; Elapse 400; SetSearchString "AAPL"; Elapse 400]
    (mount (λ _, Ok (SymbolsData [])) 0 ∅ (mkWorld (Auth.mkEnv (Some ∅)) [] [])))))
  = [] ∧
  map params (sent (world (fold_left (λ c ev, step (λ _, Ok (SymbolsData [])) ev c)
    [SetSearchString "AAP"; Elapse 400; SetSearchString "AAPL"; Elapse 400; Elapse 100]
    (mount (λ _, Ok (SymbolsData [])) 0 ∅ (mkWorld (Auth.mkEnv (Some ∅)) [] [])))))
  = [Some (SearchParams.mk (Some "AAPL") (Some "") (Some ""))].
Proof. by vm_compute. Qed.

(** C7. The search query is enabled by [debouncedSearchString.length > 2]
    alone. Whatever happens to the component, while the debounced text has
    two characters or fewer no request is sent, the cache is not written,
    and the search returns no data. After a change of the search text,
    nothing is sent until 500 ms have passed without further input; then
    the debounced text becomes the text typed, and if it is longer than two
    characters (and not in the cache) the request for it is sent. *)
Theorem search_waits_for_debounce_and_length (backend : Backend) :
  (∀ c, enabled (query backend c) = true
        ↔ (2 < String.length (debouncedSearchString c))%nat) ∧
  (∀ c ev, let c' := step backend ev c in
     (String.length (debouncedSearchString c') ≤ 2)%nat →
     sent (world c') = sent (world c) ∧ cache c' = cache c) ∧
  (∀ c, short_keys_empty (cache c) →
     (String.length (debouncedSearchString c) ≤ 2)%nat →
     symbols backend c = None) ∧
  (∀ c ev, short_keys_empty (cache c) →
     short_keys_empty (cache (step backend ev c))) ∧
  short_keys_empty ∅ ∧
  (∀ (key : QueryKey) (cache : QueryClient),
     short_keys_empty cache → short_keys_empty (invalidateQueries key cache)) ∧
  (∀ now (cache0 : QueryClient) w, let c := mount backend now cache0 w in
     cache c = cache0 ∧ sent (world c) = sent w ∧
     debouncedSearchString c = "" ∧
     UseDebounce.previousValue (debounce c) = searchString c) ∧
  (∀ c ev, UseDebounce.previousValue (debounce (step backend ev c))
           = searchString (step backend ev c)) ∧
  (∀ c v ms, UseDebounce.previousValue (debounce c) ≠ v →
     let c1 := step backend (SetSearchString v) c in
     let c2 := step backend (Elapse ms) c1 in
     sent (world c1) = sent (world c) ∧
     debouncedSearchString c1 = debouncedSearchString c ∧
     ((ms < 500)%nat →
        sent (world c2) = sent (world c) ∧
        debouncedSearchString c2 = debouncedSearchString c) ∧
     ((500 ≤ ms)%nat →
        debouncedSearchString c2 = v ∧
        ((String.length v ≤ 2)%nat → sent (world c2) = sent (world c)) ∧
        ((2 < String.length v)%nat → v ≠ debouncedSearchString c →
         cache c !! [KString "symbols";
                     KParams (SearchParams.mk (Some v) (Some (exchange c))
                                              (Some (securityType c)))] = None →
         sent (world c2) = sent (world c) ++
           [requestInterceptor (env (world c))
              (mkRequest GET "/search_symbols/" ∅
                 (Some (SearchParams.mk (Some v) (Some (exchange c))
                                        (Some (securityType c)))) NoBody)]))).
Proof.
  split_and!.
  - intros c. simpl. unfold searchEnabled. apply Nat.ltb_lt.
  - intros c ev c' Hlen. subst c'.
    destruct ev; simpl in *; rewrite debounced_rerender in Hlen;
      destruct (rerender_disabled backend c _ Hlen) as [-> ->]; done.
  - intros c Hinv Hlen. unfold symbols.
    destruct (cache c !! queryKey (query backend c)) as [q|] eqn:Hq; [|done].
    simpl. eapply Hinv; [exact Hq|reflexivity|exact Hlen].
  - intros c ev Hinv. destruct ev; simpl; by apply rerender_short_keys.
  - intros params q s Hk. by rewrite lookup_empty in Hk.
  - intros key cache0 Hinv params q s Hk Hs Hlen.
    rewrite CacheFacts.lookup_invalidateQueries in Hk.
    destruct (cache0 !! _) as [q0|] eqn:Hq0; [|done]. simpl in Hk.
    injection Hk as <-. pose proof (Hinv params q0 s Hq0 Hs Hlen) as Hd.
    by destruct (bool_decide _).
  - intros now cache0 w c. subst c. unfold mount. cbv zeta.
    rewrite read_disabled by done. simpl. split_and!; done.
  - intros c ev. destruct ev; simpl.
    all: match goal with
         | |- context [rerender ?be ?b ?a] =>
             by destruct (searchString_rerender be b a) as (-> & -> & _)
         end.
  - intros c v ms Hv c1 c2.
    set (a1 := mk (now c) v (exchange c) (securityType c) (debounce c)
                  (cache c) (world c)).
    assert (c1 = mk (now c) v (exchange c) (securityType c)
                    (UseDebounce.mk v (debouncedSearchString c) (Some (now c + 500)%nat))
                    (cache c) (world c)) as Hc1.
    { subst c1. simpl. fold a1. unfold rerender. cbv zeta.
      assert (UseDebounce.render (now a1) (searchString a1) 500 (debounce a1)
              = UseDebounce.mk v (debouncedSearchString c) (Some (now c + 500)%nat)) as ->.
      { unfold UseDebounce.render. simpl. by rewrite decide_False. }
      rewrite decide_True; [done|]. done. }
    clearbody c1. subst c1. clear a1. split_and!; try done.
    + intros Hms. subst c2. simpl.
      assert (UseDebounce.fire (now c + ms)
                (UseDebounce.mk v (debouncedSearchString c) (Some (now c + 500)%nat))
              = UseDebounce.mk v (debouncedSearchString c) (Some (now c + 500)%nat)) as ->.
      { unfold UseDebounce.fire. simpl.
        destruct (Nat.leb_spec (now c + 500) (now c + ms)); [lia|done]. }
      rewrite debounced_rerender.
      by destruct (rerender_same_options backend
        (mk (now c) v (exchange c) (securityType c)
           (UseDebounce.mk v (debouncedSearchString c) (Some (now c + 500)%nat))
           (cache c) (world c))
        (mk (now c + ms) v (exchange c) (securityType c)
           (UseDebounce.mk v (debouncedSearchString c) (Some (now c + 500)%nat))
           (cache c) (world c)) eq_refl eq_refl eq_refl) as [-> _].
    + intros Hms.
      assert (c2 = rerender backend
        (mk (now c) v (exchange c) (securityType c)
           (UseDebounce.mk v (debouncedSearchString c) (Some (now c + 500)%nat))
           (cache c) (world c))
        (mk (now c + ms) v (exchange c) (securityType c)
           (UseDebounce.mk v v None) (cache c) (world c))) as Hc2.
      { subst c2. simpl. unfold UseDebounce.fire. simpl.
        destruct (Nat.leb_spec (now c + 500) (now c + ms)); [done|lia]. }
      clearbody c2. subst c2. split_and!.
      * by rewrite debounced_rerender.
      * intros Hlen.
        by destruct (rerender_disabled backend
          (mk (now c) v (exchange c) (securityType c)
             (UseDebounce.mk v (debouncedSearchString c) (Some (now c + 500)%nat))
             (cache c) (world c))
          (mk (now c + ms) v (exchange c) (securityType c)
             (UseDebounce.mk v v None) (cache c) (world c)) Hlen) as [-> _].
      * intros Hlen Hne Hmiss. unfold rerender. cbv zeta.
        assert (UseDebounce.render (now c + ms) v 500 (UseDebounce.mk v v None)
                = UseDebounce.mk v v None) as Hr.
        { unfold UseDebounce.render. simpl. by rewrite decide_True. }
        simpl. rewrite Hr. rewrite decide_False.
        2:{ intros [Hk _]. simpl in Hk. unfold debouncedSearchString in Hk.
            simpl in Hk. injection Hk as Hk. by apply Hne. }
        unfold read, fetches. simpl.
        unfold searchEnabled, debouncedSearchString. simpl.
        rewrite Hmiss.
        rewrite (proj2 (Nat.ltb_lt _ _) Hlen). simpl.
        by destruct (backend _).
Qed.

End SearchClaims.

(** * Further properties of the code *)

(** ** Trimming, upper-casing and splitting *)

Module CleanFacts.
Import JsString BulkUpload Clean ParseFacts.

Lemma upperChar_idem c : upperChar (upperChar c) = upperChar c.
Proof. destruct c as [[] [] [] [] [] [] [] []]; reflexivity. Qed.

Lemma isWhiteSpace_upperChar c : isWhiteSpace (upperChar c) = isWhiteSpace c.
Proof. destruct c as [[] [] [] [] [] [] [] []]; reflexivity. Qed.

Lemma upperChar_comma c : bool_decide (upperChar c = comma) = bool_decide (c = comma).
Proof. destruct c as [[] [] [] [] [] [] [] []]; reflexivity. Qed.

Lemma upperChar_LF c : bool_decide (upperChar c = LF) = bool_decide (c = LF).
Proof. destruct c as [[] [] [] [] [] [] [] []]; reflexivity. Qed.

Lemma toUpperCase_idem s : toUpperCase (toUpperCase s) = toUpperCase s.
Proof. induction s as [|c s IH]; simpl; [done|]. by rewrite upperChar_idem, IH. Qed.

Lemma toUpperCase_empty s : toUpperCase s = "" ↔ s = "".
Proof. by destruct s. Qed.

Lemma includes_comma_toUpperCase s :
  includes comma (toUpperCase s) = includes comma s.
Proof. induction s as [|c s IH]; simpl; [done|]. by rewrite upperChar_comma, IH. Qed.

Lemma includes_LF_toUpperCase s : includes LF (toUpperCase s) = includes LF s.
Proof. induction s as [|c s IH]; simpl; [done|]. by rewrite upperChar_LF, IH. Qed.

Lemma trimStart_toUpperCase s : trimStart (toUpperCase s) = toUpperCase (trimStart s).
Proof.
  induction s as [|c s IH]; simpl; [done|].
  rewrite isWhiteSpace_upperChar. by destruct (isWhiteSpace c).
Qed.

Lemma trimEnd_toUpperCase s : trimEnd (toUpperCase s) = toUpperCase (trimEnd s).
Proof.
  induction s as [|c s IH]; simpl; [done|].
  rewrite IH, isWhiteSpace_upperChar.
  destruct (trimEnd s); simpl; [|done]. by destruct (isWhiteSpace c).
Qed.

Lemma trim_toUpperCase s : trim (toUpperCase s) = toUpperCase (trim s).
Proof. unfold trim. by rewrite trimStart_toUpperCase, trimEnd_toUpperCase. Qed.

Lemma startsClean_trimStart s : startsClean (trimStart s) = true.
Proof.
  induction s as [|c s IH]; simpl; [done|].
  destruct (isWhiteSpace c) eqn:Hc; [done|]. simpl. by rewrite Hc.
Qed.

Lemma trimStart_id s : startsClean s = true → trimStart s = s.
Proof. destruct s as [|c s]; simpl; [done|]. by destruct (isWhiteSpace c). Qed.

Lemma endsClean_trimEnd s : endsClean (trimEnd s) = true.
Proof.
  induction s as [|c s IH]; simpl; [done|].
  destruct (trimEnd s) as [|c' r] eqn:Hr.
  - destruct (isWhiteSpace c) eqn:Hc; simpl; [done|]. by rewrite Hc.
  - exact IH.
Qed.

Lemma trimEnd_id s : endsClean s = true → trimEnd s = s.
Proof.
  induction s as [|c s IH]; simpl; [done|].
  destruct s as [|c' s'].
  - simpl. by destruct (isWhiteSpace c).
  - intros He. by rewrite IH.
Qed.

Lemma startsClean_trimEnd s : startsClean s = true → startsClean (trimEnd s) = true.
Proof.
  destruct s as [|c s]; simpl; [done|].
  destruct (trimEnd s); [|done].
  destruct (isWhiteSpace c) eqn:Hc; simpl; [done|]. by rewrite Hc.
Qed.

Lemma trim_shape s : startsClean (trim s) = true ∧ endsClean (trim s) = true.
Proof.
  unfold trim. split.
  - apply startsClean_trimEnd, startsClean_trimStart.
  - apply endsClean_trimEnd.
Qed.

Lemma trim_id s : startsClean s = true → endsClean s = true → trim s = s.
Proof. intros Hs He. unfold trim. rewrite trimStart_id by done. by apply trimEnd_id. Qed.

Lemma trim_idem s : trim (trim s) = trim s.
Proof. destruct (trim_shape s). by apply trim_id. Qed.

Lemma includes_trimStart c s : includes c s = false → includes c (trimStart s) = false.
Proof.
  induction s as [|c' s IH]; simpl; [done|]. intros Hi.
  destruct (isWhiteSpace c'); [|done].
  apply orb_false_iff in Hi as [_ Hi]. by apply IH.
Qed.

Lemma includes_trimEnd c s : includes c s = false → includes c (trimEnd s) = false.
Proof.
  induction s as [|c' s IH]; simpl; [done|]. intros Hi.
  apply orb_false_iff in Hi as [Hc Hi]. specialize (IH Hi).
  destruct (trimEnd s).
  - destruct (isWhiteSpace c'); simpl; [done|]. by rewrite Hc.
  - simpl in *. by rewrite Hc, IH.
Qed.

Lemma includes_trim c s : includes c s = false → includes c (trim s) = false.
Proof. intros Hi. unfold trim. by apply includes_trimEnd, includes_trimStart. Qed.

Lemma includes_app c a b : includes c (a +:+ b) = includes c a || includes c b.
Proof. induction a as [|c' a IH]; simpl; [done|]. by rewrite IH, orb_assoc. Qed.

(** The pieces of a split hold no separator, and no character that the
    string did not hold. *)
Lemma split_pieces sep s :
  Forall (λ p, includes sep p = false) (split sep s).
Proof.
  induction s as [|c s IH]; simpl; [by apply Forall_cons|].
  case_decide as Hc; [by apply Forall_cons|].
  destruct (split sep s) as [|p ps] eqn:Hs; [by apply split_nonempty in Hs|].
  apply Forall_cons in IH as [Hp Hps]. apply Forall_cons. split; [|done].
  simpl. rewrite Hp. by rewrite bool_decide_eq_false_2.
Qed.

Lemma split_pieces_without c sep s :
  includes c s = false → Forall (λ p, includes c p = false) (split sep s).
Proof.
  induction s as [|c' s IH]; simpl; [by intros; apply Forall_cons|].
  intros Hi. apply orb_false_iff in Hi as [Hc Hi]. specialize (IH Hi).
  destruct (decide (c' = sep)); [by apply Forall_cons|].
  destruct (split sep s) as [|p ps] eqn:Hs; [by apply split_nonempty in Hs|].
  apply Forall_cons in IH as [Hp Hps]. apply Forall_cons. split; [|done].
  simpl. by rewrite Hc, Hp.
Qed.

Lemma startsClean_app a b : a ≠ "" → startsClean (a +:+ b) = startsClean a.
Proof. by destruct a. Qed.

Lemma endsClean_app a b : b ≠ "" → endsClean (a +:+ b) = endsClean b.
Proof.
  intros Hb. induction a as [|c a IH]; simpl; [done|].
  rewrite <- IH. destruct (a +:+ b) eqn:Hab; [|done].
  exfalso. destruct a; simpl in Hab; [done|discriminate].
Qed.

End CleanFacts.

(** ** More on the bulk-upload parser *)

Module ParseMore.
Import JsString BulkUpload Clean ParseFacts CleanFacts.

Lemma cleanField_trim f :
  includes comma f = false → includes LF f = false → trim f ≠ "" →
  cleanField (trim f).
Proof.
  intros Hc Hl Hne. destruct (trim_shape f) as [Hs He].
  split_and!; try done; by apply includes_trim.
Qed.

Lemma cleanField_toUpperCase s : cleanField s → cleanField (toUpperCase s).
Proof.
  intros (Hne & Hs & He & Hc & Hl).
  split_and!.
  - by rewrite toUpperCase_empty.
  - destruct s as [|c s]; simpl in *; [done|]. by rewrite isWhiteSpace_upperChar.
  - rewrite <- (trim_id s Hs He), <- trim_toUpperCase.
    apply trim_shape.
  - by rewrite includes_comma_toUpperCase.
  - by rewrite includes_LF_toUpperCase.
Qed.

Lemma pushLine_normalised line :
  includes LF line = false → Forall normalised (pushLine [] line).
Proof.
  intros Hl. apply Forall_forall. intros e He.
  apply elem_of_pushLine in He as (f0 & f1 & rest & Hs & H0 & H1 & ->).
  pose proof (split_pieces comma line) as Hc. rewrite Hs in Hc.
  apply Forall_cons in Hc as [Hc0 Hc]. apply Forall_cons in Hc as [Hc1 _].
  pose proof (split_pieces_without LF comma line Hl) as Hn. rewrite Hs in Hn.
  apply Forall_cons in Hn as [Hn0 Hn]. apply Forall_cons in Hn as [Hn1 _].
  unfold normalised. simpl. split_and!; try done.
  - by apply cleanField_toUpperCase, cleanField_trim.
  - by apply cleanField_trim.
  - apply toUpperCase_idem.
Qed.

Lemma flat_map_Forall {A B} (P : B → Prop) (f : A → list B) (l : list A) :
  Forall (λ x, Forall P (f x)) l → Forall P (flat_map f l).
Proof.
  induction 1 as [|x l Hx Hl IH]; simpl; [done|]. by apply Forall_app.
Qed.

(** A clean line parses to its entry. *)
Lemma pushLine_lineOf e : normalised e → pushLine [] (lineOf e) = [e].
Proof.
  intros ((Hne0 & Hs0 & He0 & Hc0 & Hl0) & (Hne1 & Hs1 & He1 & Hc1 & Hl1) & Hup & Hd & Ht).
  unfold pushLine, lineOf. cbv zeta.
  change ("," +:+ exchange e) with (String comma (exchange e)).
  rewrite split_piece by done. rewrite split_single by done.
  change (map trim [symbol e; exchange e]) with [trim (symbol e); trim (exchange e)].
  rewrite !trim_id by done.
  change ([symbol e; exchange e] !! 0%nat) with (Some (symbol e)).
  change ([symbol e; exchange e] !! 1%nat) with (Some (exchange e)).
  rewrite (proj2 (truthy_Some (symbol e))), (proj2 (truthy_Some (exchange e))) by done.
  simpl. rewrite Hup. destruct e; simpl in *. by subst.
Qed.

Lemma lineOf_shape e :
  normalised e →
  lineOf e ≠ "" ∧ startsClean (lineOf e) = true ∧ endsClean (lineOf e) = true ∧
  includes LF (lineOf e) = false.
Proof.
  intros ((Hne0 & Hs0 & He0 & Hc0 & Hl0) & (Hne1 & Hs1 & He1 & Hc1 & Hl1) & _).
  unfold lineOf. split_and!.
  - by destruct (symbol e).
  - by rewrite startsClean_app.
  - rewrite endsClean_app by done.
    change ("," +:+ exchange e) with (String comma (exchange e)).
    simpl. by destruct (exchange e).
  - rewrite includes_app, Hl0.
    change ("," +:+ exchange e) with (String comma (exchange e)).
    cbn [includes orb]. rewrite Hl1. reflexivity.
Qed.

Lemma textOf_cons e l :
  l ≠ [] → textOf (e :: l) = lineOf e +:+ String LF (textOf l).
Proof. destruct l; [done|]. reflexivity. Qed.

Lemma textOf_shape l :
  Forall normalised l → l ≠ [] →
  textOf l ≠ "" ∧ startsClean (textOf l) = true ∧ endsClean (textOf l) = true ∧
  split LF (textOf l) = map lineOf l.
Proof.
  induction 1 as [|e l He Hl IH]; [done|]. intros _.
  destruct (lineOf_shape e He) as (Hne & Hs & Hend & Hlf).
  destruct l as [|e' l'].
  - change (textOf [e]) with (lineOf e). split_and!; try done.
    by apply split_single.
  - destruct IH as (IHne & IHs & IHe & IHsplit); [done|].
    rewrite textOf_cons by done. split_and!.
    + by destruct (lineOf e).
    + by rewrite startsClean_app.
    + rewrite endsClean_app by done. simpl.
      by destruct (textOf (e' :: l')).
    + rewrite split_piece by done. by rewrite IHsplit.
Qed.

End ParseMore.

Section ParseExtras.
Import JsString BulkUpload Clean ParseFacts CleanFacts ParseMore.

(** X1. Whatever the text, every entry [parseSymbols] returns is
    normalised: symbol and exchange are not empty, carry no white space at
    either end, no comma and no line feed; the symbol is in upper case; the
    description and the security type are absent. *)
Theorem parseSymbols_entries_normalised (text : string) :
  Forall normalised (parseSymbols text).
Proof.
  rewrite parseSymbols_flat_map. apply flat_map_Forall.
  eapply Forall_impl; [apply (split_pieces LF)|].
  intros line Hl. simpl in Hl. by apply pushLine_normalised.
Qed.

(** X2. Parsing undoes formatting: the text made of one line
    "SYMBOL,EXCHANGE" per entry, for normalised entries, parses to exactly
    those entries in the same order. In particular the empty text parses to
    no entry. *)
Theorem parseSymbols_textOf (l : list IngestedSymbol) :
  Forall normalised l → parseSymbols (textOf l) = l.
Proof.
  intros Hl. destruct (decide (l = [])) as [->|Hne]; [reflexivity|].
  destruct (textOf_shape l Hl Hne) as (_ & Hs & He & Hsplit).
  rewrite parseSymbols_flat_map, trim_id, Hsplit by done.
  clear Hne Hs He Hsplit. induction Hl as [|e l He Hl IH]; simpl; [done|].
  by rewrite pushLine_lineOf, IH.
Qed.

Lemma parseSymbols_textOf_witness :
  parseSymbols (textOf [mkSymbol "AAPL" "NASDAQ" None None;
                        mkSymbol "ES" "CME" None None])
  = [mkSymbol "AAPL" "NASDAQ" None None; mkSymbol "ES" "CME" None None].
Proof.
  apply parseSymbols_textOf.
  repeat apply Forall_cons_2; [| |apply Forall_nil_2];
    (split_and!; try reflexivity; split_and!; (discriminate || reflexivity)).
Defined.

(** X3. White space around the text does not matter, and a text of white
    space only yields no entry: [parseSymbols] of the trimmed text is
    [parseSymbols] of the text, and it is empty when the trimmed text is. *)
Theorem parseSymbols_ignores_surrounding_space (text : string) :
  parseSymbols (trim text) = parseSymbols text ∧
  (trim text = "" → parseSymbols text = []).
Proof.
  split.
  - unfold parseSymbols. cbv zeta. by rewrite trim_idem.
  - intros Ht. unfold parseSymbols. cbv zeta. by rewrite Ht.
Qed.

End ParseExtras.

(** ** More on the reconciliation *)

Module ReconcileMore.
Import JsMap JsMapFacts Ingestion IngestionFacts.

Lemma keys_keyed l : keys (keyed l) = map symbolKey l.
Proof. unfold keys, keyed. rewrite map_map. reflexivity. Qed.

Lemma values_keyed l : values (keyed l) = l.
Proof. unfold values, keyed. rewrite map_map. simpl. apply map_id. Qed.

(** A list without duplicate keys is its own merge. *)
Lemma uniqueSymbols_NoDup l : NoDup (map symbolKey l) → uniqueSymbols l = l.
Proof.
  intros Hnd. rewrite uniqueSymbols_eq. unfold of_entries.
  rewrite (fold_set_fresh (keyed l) []).
  - simpl. apply values_keyed.
  - simpl. by rewrite keys_keyed.
Qed.

Lemma of_entries_snoc {V} (es : list (string * V)) k v :
  of_entries (es ++ [(k, v)]) = set k v (of_entries es).
Proof. unfold of_entries. by rewrite fold_left_app. Qed.

Lemma set_middle {V} (pre post : JsMap.t V) k x v :
  k ∉ keys pre → set k v (pre ++ (k, x) :: post) = pre ++ (k, v) :: post.
Proof.
  induction pre as [|[k0 v0] pre IH]; simpl; intros Hk.
  - by rewrite decide_True.
  - apply not_elem_of_cons in Hk as [Hne Hk].
    rewrite decide_False by done. by rewrite IH.
Qed.

Lemma keys_set_prefix {V} (m : JsMap.t V) k v : keys m `prefix_of` keys (set k v m).
Proof.
  destruct (decide (k ∈ keys m)) as [Hin|Hin].
  - by rewrite keys_set_in.
  - rewrite keys_set_notin by done. unfold keys. rewrite map_app.
    by apply prefix_app_r.
Qed.

Lemma keys_fold_prefix {V} (es : list (string * V)) (m : JsMap.t V) :
  keys m `prefix_of` keys (fold_left (λ m e, set e.1 e.2 m) es m).
Proof.
  revert m. induction es as [|[k v] es IH]; simpl; intros m; [done|].
  etrans; [apply (keys_set_prefix m k v)|apply IH].
Qed.

Lemma length_set {V} (m : JsMap.t V) k v :
  (length m ≤ length (set k v m) ≤ S (length m))%nat.
Proof.
  induction m as [|[k0 v0] m IH]; simpl; [lia|].
  case_decide; simpl; lia.
Qed.

Lemma length_fold_set {V} (es : list (string * V)) (m : JsMap.t V) :
  (length m ≤ length (fold_left (λ m e, set e.1 e.2 m) es m)
   ≤ length m + length es)%nat.
Proof.
  revert m. induction es as [|[k v] es IH]; simpl; intros m; [lia|].
  specialize (IH (set k v m)). pose proof (length_set m k v). lia.
Qed.

Lemma length_uniqueSymbols l : (length (uniqueSymbols l) ≤ length l)%nat.
Proof.
  rewrite uniqueSymbols_eq. unfold values. rewrite length_map.
  pose proof (length_fold_set (keyed l) []) as Hlen. simpl in Hlen.
  assert (length (keyed l) = length l) as Hk by (unfold keyed; apply length_map).
  unfold of_entries. lia.
Qed.

Lemma keys_uniqueSymbols_iff l k :
  k ∈ map symbolKey (uniqueSymbols l) ↔ k ∈ map symbolKey l.
Proof.
  rewrite keys_uniqueSymbols, elem_keys_get, get_of_entries.
  rewrite <- not_eq_None_Some, last_with_None, keys_keyed.
  destruct (decide (k ∈ map symbolKey l)); naive_solver.
Qed.

Lemma uniqueSymbols_subset l e : e ∈ uniqueSymbols l → e ∈ l.
Proof.
  intros He. apply elem_of_uniqueSymbols in He as (pre & post & -> & _).
  apply elem_of_app. right. apply elem_of_cons. by left.
Qed.

(** Adding an entry whose key is present replaces the entry where it
    stands. *)
Lemma add_existing_symbol_replaces_in_place_aux
    (pre post : list IngestedSymbol) (x s : IngestedSymbol) :
  NoDup (map symbolKey (pre ++ x :: post)) → symbolKey s = symbolKey x →
  handleAddSymbol (Some (pre ++ x :: post)) s = pre ++ s :: post.
Proof.
  intros Hnd Hk. rewrite handleAddSymbol_eq. simpl.
  rewrite uniqueSymbols_eq. unfold keyed at 1. rewrite map_app. simpl.
  fold (keyed (pre ++ x :: post)). rewrite of_entries_snoc.
  unfold of_entries. rewrite (fold_set_fresh (keyed (pre ++ x :: post)) [])
    by (simpl; by rewrite keys_keyed).
  simpl. unfold keyed at 1. rewrite map_app. simpl. rewrite Hk.
  fold (keyed pre) (keyed post). rewrite set_middle.
  - unfold values. rewrite map_app. simpl.
    fold (values (keyed pre)) (values (keyed post)). by rewrite !values_keyed.
  - rewrite keys_keyed. rewrite map_app in Hnd. apply NoDup_app in Hnd as (_ & Hd & _).
    intros Hin. apply (Hd _ Hin). simpl. apply elem_of_cons. by left.
Qed.

End ReconcileMore.

Section ReconcileExtras.
Import JsMap JsMapFacts Ingestion IngestionFacts ReconcileMore.

(** X4. Merging an empty batch returns the current list unchanged exactly
    when the current list has no two entries with the same key; a list with
    duplicates comes back shorter. *)
Theorem merge_nothing_iff_unique (l : list IngestedSymbol) :
  (handleBulkUpload (Some l) [] = l ↔ NoDup (map symbolKey l)) ∧
  (length (handleBulkUpload (Some l) []) ≤ length l)%nat.
Proof.
  rewrite handleBulkUpload_eq. simpl. rewrite app_nil_r. split.
  - split.
    + intros Heq. rewrite <- Heq. apply NoDup_symbolKey.
    + apply uniqueSymbols_NoDup.
  - apply length_uniqueSymbols.
Qed.

(** X5. Adding a symbol whose key is not in a duplicate-free list appends
    it: every existing entry stays, in its place, and the new entry is the
    last. *)
Theorem add_fresh_symbol_appends (l : list IngestedSymbol) (s : IngestedSymbol) :
  NoDup (map symbolKey l) → symbolKey s ∉ map symbolKey l →
  handleAddSymbol (Some l) s = l ++ [s].
Proof.
  intros Hnd Hs. rewrite handleAddSymbol_eq. simpl.
  apply uniqueSymbols_NoDup. rewrite map_app. simpl.
  apply NoDup_app. split_and!; [done| |apply NoDup_singleton].
  intros k Hk Hk'. apply list_elem_of_singleton in Hk' as ->. done.
Qed.

Lemma add_fresh_symbol_appends_witness :
  handleAddSymbol (Some [mkSymbol "AAPL" "NASDAQ" (Some "Apple") (Some "STOCK")])
    (mkSymbol "MSFT" "NASDAQ" None None)
  = [mkSymbol "AAPL" "NASDAQ" (Some "Apple") (Some "STOCK")]
    ++ [mkSymbol "MSFT" "NASDAQ" None None].
Proof.
  apply add_fresh_symbol_appends.
  - apply NoDup_singleton.
  - vm_compute. intros H. apply list_elem_of_singleton in H. discriminate H.
Defined.

(** X6. Adding a symbol whose key is already in a duplicate-free list
    replaces that entry where it stands: the list keeps its length and its
    order, and the old entry's description and security type are gone
    unless the new entry carries them. *)
Theorem add_existing_symbol_replaces_in_place
    (pre post : list IngestedSymbol) (x s : IngestedSymbol) :
  NoDup (map symbolKey (pre ++ x :: post)) → symbolKey s = symbolKey x →
  handleAddSymbol (Some (pre ++ x :: post)) s = pre ++ s :: post.
Proof. apply add_existing_symbol_replaces_in_place_aux. Qed.

Lemma add_existing_symbol_replaces_in_place_witness :
  handleAddSymbol
    (Some ([mkSymbol "ES" "CME" None None]
           ++ mkSymbol "AAPL" "NASDAQ" (Some "Apple") (Some "STOCK")
              :: [mkSymbol "MSFT" "NASDAQ" None None]))
    (mkSymbol "AAPL" "NASDAQ" None None)
  = [mkSymbol "ES" "CME" None None]
    ++ mkSymbol "AAPL" "NASDAQ" None None :: [mkSymbol "MSFT" "NASDAQ" None None].
Proof.
  apply add_existing_symbol_replaces_in_place.
  - vm_compute. repeat (apply NoDup_cons_2; [intros H; repeat (apply elem_of_cons in H as [H|H]; [discriminate H|]); by apply elem_of_nil in H|]).
    apply NoDup_nil_2.
  - reflexivity.
Defined.

(** X7. The merge neither invents nor loses a key: the merged list has an
    entry for a key exactly when the current list or the batch has one, and
    each of its entries is an entry of the current list or of the batch. It
    is never longer than the two together. *)
Theorem merge_keeps_every_key
    (ingestedSymbols : option (list IngestedSymbol)) (symbols : list SymbolUpdate) :
  let merged := handleBulkUpload ingestedSymbols symbols in
  (∀ k, k ∈ map symbolKey merged
        ↔ k ∈ map symbolKey (default [] ingestedSymbols ++ symbols)) ∧
  (∀ e, e ∈ merged → e ∈ default [] ingestedSymbols ∨ e ∈ symbols) ∧
  (length merged ≤ length (default [] ingestedSymbols) + length symbols)%nat ∧
  (merged = [] ↔ default [] ingestedSymbols ++ symbols = []).
Proof.
  intros merged. subst merged. rewrite handleBulkUpload_eq.
  set (all := default [] ingestedSymbols ++ symbols).
  assert (length (uniqueSymbols all) ≤ length all)%nat as Hlen.
  { apply length_uniqueSymbols. }
  split_and!.
  - intros k. apply keys_uniqueSymbols_iff.
  - intros e He. apply uniqueSymbols_subset in He. by apply elem_of_app in He.
  - subst all. rewrite length_app in Hlen. lia.
  - split.
    + intros Hm. destruct all as [|x all'] eqn:Hall; [done|]. exfalso.
      assert (symbolKey x ∈ map symbolKey (uniqueSymbols (x :: all'))) as Hin.
      { apply keys_uniqueSymbols_iff. simpl. apply elem_of_cons. by left. }
      rewrite Hm in Hin. by apply elem_of_nil in Hin.
    + intros ->. reflexivity.
Qed.

(** X8. A bulk upload into a duplicate-free list leaves the rows of the
    list where they are: the keys of the current list, in their order, are
    the first keys of the merged list, and keys new with the batch come
    after them. *)
Theorem merge_keeps_rows_in_place
    (l : list IngestedSymbol) (symbols : list SymbolUpdate) :
  NoDup (map symbolKey l) →
  map symbolKey l `prefix_of` map symbolKey (handleBulkUpload (Some l) symbols).
Proof.
  intros Hnd. rewrite handleBulkUpload_eq. simpl.
  rewrite keys_uniqueSymbols. unfold keyed. rewrite map_app.
  fold (keyed l) (keyed symbols). unfold of_entries. rewrite fold_left_app.
  rewrite (fold_set_fresh (keyed l) []) by (simpl; by rewrite keys_keyed).
  simpl. rewrite <- (keys_keyed l). apply keys_fold_prefix.
Qed.

Lemma merge_keeps_rows_in_place_witness :
  map symbolKey [mkSymbol "ES" "CME" None None; mkSymbol "AAPL" "NASDAQ" None None]
  `prefix_of`
  map symbolKey
    (handleBulkUpload
       (Some [mkSymbol "ES" "CME" None None; mkSymbol "AAPL" "NASDAQ" None None])
       [mkSymbol "MSFT" "NASDAQ" None None; mkSymbol "ES" "CME" (Some "E-mini") None]).
Proof.
  apply merge_keeps_rows_in_place.
  vm_compute. repeat (apply NoDup_cons_2; [intros H; repeat (apply elem_of_cons in H as [H|H]; [discriminate H|]); by apply elem_of_nil in H|]).
  apply NoDup_nil_2.
Defined.

End ReconcileExtras.

(** ** Token store, login, logout and the gate together *)

Module SessionFacts.
Import JsString Auth Api WithAuth GateFacts Requests.

Lemma getToken_setToken t e :
  getToken (setToken t e) = match window e with Some _ => Some t | None => None end.
Proof.
  unfold getToken, setToken. destruct (window e) as [ls|] eqn:Hw; simpl.
  - apply lookup_insert_eq.
  - by rewrite Hw.
Qed.

Lemma getCurrentUser_spec backend w :
  getCurrentUser backend w =
  (backend (requestInterceptor (env w) currentUserRequest),
   mkWorld (env w) (sent w ++ [requestInterceptor (env w) currentUserRequest])
     (pushed w)).
Proof. reflexivity. Qed.

Lemma truthy_negb_isAuthenticated e :
  negb (truthy (getToken e)) = negb (isAuthenticated e).
Proof. reflexivity. Qed.

End SessionFacts.

Section SessionExtras.
Import JsString Auth Api WithAuth GateFacts Requests SessionFacts LoginPage Layout.

(** X9. The token store gives back what was stored: in a browser,
    [getToken] after [setToken] is the token stored, and the store counts
    as authenticated exactly when that token is not empty; after
    [removeToken] there is no token. Without a browser the three functions
    do nothing and there is never a token. *)
Theorem token_store_round_trip (e : Env) (t : string) :
  match window e with
  | Some _ =>
      getToken (setToken t e) = Some t ∧
      (isAuthenticated (setToken t e) = true ↔ t ≠ "")
  | None =>
      setToken t e = e ∧ removeToken e = e ∧
      getToken e = None ∧ isAuthenticated e = false
  end ∧
  getToken (removeToken (setToken t e)) = None ∧
  isAuthenticated (removeToken e) = false.
Proof.
  split_and!.
  - destruct (window e) as [ls|] eqn:Hw.
    + assert (getToken (setToken t e) = Some t) as Hg
        by (by rewrite getToken_setToken, Hw).
      split; [done|]. unfold isAuthenticated. cbv zeta. rewrite Hg.
      by destruct t.
    + unfold setToken, removeToken, isAuthenticated, getToken. by rewrite Hw.
  - apply getToken_removeToken.
  - unfold isAuthenticated. cbv zeta. by rewrite getToken_removeToken.
Qed.

(** X10. [setToken] and [removeToken] touch the item "authToken" and no
    other item of the local storage. *)
Theorem token_store_touches_one_item (e : Env) (t k : string) :
  k ≠ TOKEN_KEY →
  (window (setToken t e) ≫= (λ ls, ls !! k)) = (window e ≫= (λ ls, ls !! k)) ∧
  (window (removeToken e) ≫= (λ ls, ls !! k)) = (window e ≫= (λ ls, ls !! k)).
Proof.
  intros Hk. unfold setToken, removeToken.
  destruct (window e) as [ls|] eqn:Hw; simpl.
  - by rewrite lookup_insert_ne, lookup_delete_ne.
  - by rewrite Hw.
Qed.

Lemma token_store_touches_one_item_witness :
  (window (setToken "tok" (mkEnv (Some {["theme" := "dark"]})))
     ≫= (λ ls, ls !! "theme"))
  = (window (mkEnv (Some {["theme" := "dark"]})) ≫= (λ ls, ls !! "theme")) ∧
  (window (removeToken (mkEnv (Some {["theme" := "dark"]})))
     ≫= (λ ls, ls !! "theme"))
  = (window (mkEnv (Some {["theme" := "dark"]})) ≫= (λ ls, ls !! "theme")).
Proof.
  apply (token_store_touches_one_item (mkEnv (Some {["theme" := "dark"]})) "tok" "theme").
  discriminate.
Defined.

(** X11. The login form sends nothing while the user name or the password
    is empty: the client is left as it was (no request, no token, no
    navigation), the loading flag is not touched, and the one thing that
    happens is the error toast. *)
Theorem login_needs_both_fields
    (backend : Backend) (detail : AxiosError → option string) (p : Page) :
  username p = "" ∨ password p = "" →
  let p' := handleSubmit backend detail p in
  world p' = world p ∧ loading p' = loading p ∧
  username p' = username p ∧ password p' = password p ∧
  toasts p' = toasts p ++ [ToastError "Please enter both username and password"].
Proof.
  intros Hempty p'. subst p'. unfold handleSubmit.
  assert (negb (truthy (Some (username p))) || negb (truthy (Some (password p))) = true)
    as ->; [|done].
  destruct Hempty as [->| ->]; [done|]. by destruct (username p).
Qed.

Lemma login_needs_both_fields_witness :
  let p := mkPage "admin" "" false [] (mkWorld (mkEnv (Some ∅)) [] []) in
  let p' := handleSubmit (λ _, Ok (TokenData "t")) (λ _, None) p in
  world p' = world p ∧ loading p' = loading p ∧
  username p' = username p ∧ password p' = password p ∧
  toasts p' = toasts p ++ [ToastError "Please enter both username and password"].
Proof.
  intros p.
  apply (login_needs_both_fields (λ _, Ok (TokenData "t")) (λ _, None) p).
  right. reflexivity.
Defined.

(** X12. A login the backend accepts sends exactly one request, the form
    with both fields to /token, stores the returned access token (in a
    browser), pushes the route "/", and ends with the loading flag off. *)
Theorem login_success_stores_token
    (backend : Backend) (detail : AxiosError → option string) (p : Page) (t : string) :
  username p ≠ "" → password p ≠ "" →
  backend (requestInterceptor (env (world p))
             (loginRequest (username p) (password p))) = Ok (TokenData t) →
  let p' := handleSubmit backend detail p in
  sent (world p') = sent (world p)
    ++ [requestInterceptor (env (world p)) (loginRequest (username p) (password p))] ∧
  getToken (env (world p'))
    = match window (env (world p)) with Some _ => Some t | None => None end ∧
  pushed (world p') = pushed (world p) ++ ["/"] ∧
  loading p' = false ∧
  toasts p' = toasts p ++ [ToastSuccess "Logged in successfully"].
Proof.
  intros Hu Hp Hok p'. subst p'. unfold handleSubmit.
  assert (negb (truthy (Some (username p))) || negb (truthy (Some (password p))) = false)
    as ->.
  { destruct (username p); [done|]. by destruct (password p). }
  unfold loginUser, api_post. rewrite request_spec.
  change (mkRequest POST "/token" _ None _)
    with (loginRequest (username p) (password p)).
  rewrite Hok. simpl. split_and!; try done. apply getToken_setToken.
Qed.

Lemma login_success_stores_token_witness :
  let p := mkPage "admin" "secret" false [] (mkWorld (mkEnv (Some ∅)) [] []) in
  let p' := handleSubmit (λ _, Ok (TokenData "jwt")) (λ _, None) p in
  sent (world p') = sent (world p)
    ++ [requestInterceptor (env (world p)) (loginRequest (username p) (password p))] ∧
  getToken (env (world p'))
    = match window (env (world p)) with Some _ => Some "jwt" | None => None end ∧
  pushed (world p') = pushed (world p) ++ ["/"] ∧
  loading p' = false ∧
  toasts p' = toasts p ++ [ToastSuccess "Logged in successfully"].
Proof.
  intros p.
  apply (login_success_stores_token (λ _, Ok (TokenData "jwt")) (λ _, None) p "jwt").
  - discriminate.
  - discriminate.
  - reflexivity.
Defined.

(** X13. A login that fails, for whatever reason, leaves the token store
    and the router as they were: one request was sent, the loading flag is
    off again, and the toast shows the detail the error carries or, when it
    carries none, "Invalid username or password". *)
Theorem login_failure_keeps_session
    (backend : Backend) (detail : AxiosError → option string) (p : Page)
    (error : AxiosError) :
  username p ≠ "" → password p ≠ "" →
  backend (requestInterceptor (env (world p))
             (loginRequest (username p) (password p))) = Err error →
  let p' := handleSubmit backend detail p in
  env (world p') = env (world p) ∧
  pushed (world p') = pushed (world p) ∧
  sent (world p') = sent (world p)
    ++ [requestInterceptor (env (world p)) (loginRequest (username p) (password p))] ∧
  loading p' = false ∧
  toasts p' = toasts p ++
    [ToastError (match detail error with
                 | Some (String a d) => String a d
                 | _ => "Invalid username or password"
                 end)].
Proof.
  intros Hu Hp Herr p'. subst p'. unfold handleSubmit.
  assert (negb (truthy (Some (username p))) || negb (truthy (Some (password p))) = false)
    as ->.
  { destruct (username p); [done|]. by destruct (password p). }
  unfold loginUser, api_post. rewrite request_spec.
  change (mkRequest POST "/token" _ None _)
    with (loginRequest (username p) (password p)).
  rewrite Herr. simpl. split_and!; try done.
  by destruct (detail error) as [[|a d]|].
Qed.

Lemma login_failure_keeps_session_witness :
  let p := mkPage "admin" "wrong" false []
             (mkWorld (mkEnv (Some {["authToken" := "old"]})) [] []) in
  let p' := handleSubmit (λ _, Err (StatusError 401)) (λ _, Some "Incorrect password") p in
  env (world p') = env (world p) ∧
  pushed (world p') = pushed (world p) ∧
  sent (world p') = sent (world p)
    ++ [requestInterceptor (env (world p)) (loginRequest (username p) (password p))] ∧
  loading p' = false ∧
  toasts p' = toasts p ++
    [ToastError (match (λ _ : AxiosError, Some "Incorrect password") (StatusError 401) with
                 | Some (String a d) => String a d
                 | _ => "Invalid username or password"
                 end)].
Proof.
  intros p.
  apply (login_failure_keeps_session (λ _, Err (StatusError 401))
           (λ _, Some "Incorrect password") p (StatusError 401)).
  - discriminate.
  - discriminate.
  - reflexivity.
Defined.

End SessionExtras.

Module GateMore.
Import JsString Auth Api WithAuth GateFacts Requests SessionFacts.

(** Every endpoint function hands the client one request, without an
    Authorization header of its own. *)
Lemma call_request backend ep w :
  ∃ config, headers config !! "Authorization" = None ∧
            call backend ep w = request backend config w.
Proof. destruct ep; simpl; eexists; (split; [|reflexivity]); done. Qed.

(** The four ways [verifyToken] can go. *)
Lemma verifyToken_cases backend pathname s :
  let s' := verifyToken backend pathname s in
  (pathname = "/login" ∧ s' = mkWrapper (world s) false)
  ∨ (pathname ≠ "/login" ∧ isAuthenticated (env (world s)) = false ∧
     s' = mkWrapper (routerPush "/login" (world s)) (isLoading s))
  ∨ (pathname ≠ "/login" ∧ isAuthenticated (env (world s)) = true ∧
     (∃ payload, backend (requestInterceptor (env (world s)) currentUserRequest)
                 = Ok payload) ∧
     s' = mkWrapper
            (mkWorld (env (world s))
               (sent (world s) ++ [requestInterceptor (env (world s)) currentUserRequest])
               (pushed (world s))) false)
  ∨ (pathname ≠ "/login" ∧ isAuthenticated (env (world s)) = true ∧
     (∃ error, backend (requestInterceptor (env (world s)) currentUserRequest)
               = Err error) ∧
     s' = mkWrapper
            (mkWorld (removeToken (env (world s)))
               (sent (world s) ++ [requestInterceptor (env (world s)) currentUserRequest])
               (pushed (world s) ++ ["/login"])) (isLoading s)).
Proof.
  intros s'. subst s'. unfold verifyToken. cbv zeta.
  destruct (decide (pathname = "/login")) as [Hp|Hp]; [by left|].
  rewrite truthy_negb_isAuthenticated.
  destruct (isAuthenticated (env (world s))) eqn:Ha; cbn [negb];
    [|right; left; done].
  rewrite getCurrentUser_spec.
  destruct (backend _) as [payload|error] eqn:Hb.
  - right; right; left. split_and!; try done. by exists payload.
  - right; right; right. split_and!; try done. by exists error.
Qed.

End GateMore.

Section GateExtras.
Import JsString Auth Api WithAuth GateFacts Requests SessionFacts GateMore.

(** X14. The gate lets the wrapped content through only on the login route
    or after the backend confirmed the stored token: from a gate that is
    still loading, a run of [verifyToken] that ends with the content
    rendered ran on "/login", or found a token and got a successful answer
    to its identity check. *)
Theorem gate_renders_content_only_when_verified
    (backend : Backend) (pathname : string) (s : Wrapper) :
  isLoading s = true →
  render (verifyToken backend pathname s) = Wrapped →
  pathname = "/login" ∨
  (isAuthenticated (env (world s)) = true ∧
   ∃ payload, (getCurrentUser backend (world s)).1 = Ok payload).
Proof.
  intros Hload Hrender.
  destruct (verifyToken_cases backend pathname s)
    as [[Hp _]|[(_ & _ & Hs)|[(_ & Ha & Hok & _)|(_ & _ & _ & Hs)]]].
  - by left.
  - rewrite Hs in Hrender. unfold render in Hrender. simpl in Hrender.
    by rewrite Hload in Hrender.
  - right. split; [done|]. by rewrite getCurrentUser_spec.
  - rewrite Hs in Hrender. unfold render in Hrender. simpl in Hrender.
    by rewrite Hload in Hrender.
Qed.

Lemma gate_renders_content_only_when_verified_witness :
  let w := mkWorld (mkEnv (Some {["authToken" := "valid"]})) [] [] in
  "/ingestion" = "/login" ∨
  (isAuthenticated (env (world (mount w))) = true ∧
   ∃ payload, (getCurrentUser (λ _, Ok (UserData 1 "admin")) (world (mount w))).1
              = Ok payload).
Proof.
  intros w.
  apply (gate_renders_content_only_when_verified
           (λ _, Ok (UserData 1 "admin")) "/ingestion" (mount w)).
  - reflexivity.
  - vm_compute. reflexivity.
Defined.

(** X15. When the backend confirms the token, the gate shows the content
    and changes nothing else: the token stays, no route is pushed, and the
    one request sent is the identity check carrying the token as bearer. *)
Theorem gate_success_keeps_session
    (backend : Backend) (pathname : string) (s : Wrapper) (t : string) (payload : Payload) :
  pathname ≠ "/login" →
  getToken (env (world s)) = Some t → t ≠ "" →
  backend (requestInterceptor (env (world s)) currentUserRequest) = Ok payload →
  let s' := verifyToken backend pathname s in
  render s' = Wrapped ∧
  env (world s') = env (world s) ∧
  pushed (world s') = pushed (world s) ∧
  sent (world s') = sent (world s)
    ++ [requestInterceptor (env (world s)) currentUserRequest] ∧
  url (requestInterceptor (env (world s)) currentUserRequest) = "/users/me/" ∧
  headers (requestInterceptor (env (world s)) currentUserRequest) !! "Authorization"
    = Some ("Bearer " +:+ t).
Proof.
  intros Hp Ht Hne Hok s'.
  assert (isAuthenticated (env (world s)) = true) as Ha
    by (apply isAuthenticated_token; by exists t).
  assert (headers (requestInterceptor (env (world s)) currentUserRequest)
            !! "Authorization" = Some ("Bearer " +:+ t)) as Hh.
  { rewrite interceptor_header by done. rewrite Ht. by destruct t. }
  assert (url (requestInterceptor (env (world s)) currentUserRequest) = "/users/me/")
    as Hu.
  { unfold requestInterceptor. cbv zeta. rewrite Ht. by destruct t. }
  destruct (verifyToken_cases backend pathname s)
    as [[? _]|[(_ & Hf & _)|[(_ & _ & _ & Hs)|(_ & _ & (error & Herr) & _)]]];
    [done|congruence| |congruence].
  subst s'. rewrite Hs. done.
Qed.

Lemma gate_success_keeps_session_witness :
  let s := mount (mkWorld (mkEnv (Some {["authToken" := "valid"]})) [] []) in
  let s' := verifyToken (λ _, Ok (UserData 1 "admin")) "/settings" s in
  render s' = Wrapped ∧
  env (world s') = env (world s) ∧
  pushed (world s') = pushed (world s) ∧
  sent (world s') = sent (world s)
    ++ [requestInterceptor (env (world s)) currentUserRequest] ∧
  url (requestInterceptor (env (world s)) currentUserRequest) = "/users/me/" ∧
  headers (requestInterceptor (env (world s)) currentUserRequest) !! "Authorization"
    = Some ("Bearer " +:+ "valid").
Proof.
  intros s.
  apply (gate_success_keeps_session (λ _, Ok (UserData 1 "admin")) "/settings" s
           "valid" (UserData 1 "admin")).
  - discriminate.
  - vm_compute. reflexivity.
  - discriminate.
  - reflexivity.
Defined.

(** X16. Whatever the route, the token and the backend, one run of the gate
    sends at most one request, and only the identity check; pushes at most
    one route, and only "/login"; never writes a token (the store is left
    as it was or the token is removed); and never puts the loading screen
    back. On the login route it touches neither the store, the network nor
    the router, and shows the content. *)
Theorem gate_effects_are_bounded
    (backend : Backend) (pathname : string) (s : Wrapper) :
  let s' := verifyToken backend pathname s in
  (sent (world s') = sent (world s) ∨
   sent (world s') = sent (world s)
     ++ [requestInterceptor (env (world s)) currentUserRequest]) ∧
  (pushed (world s') = pushed (world s) ∨
   pushed (world s') = pushed (world s) ++ ["/login"]) ∧
  (env (world s') = env (world s) ∨
   env (world s') = removeToken (env (world s))) ∧
  (isLoading s' = isLoading s ∨ isLoading s' = false) ∧
  (pathname = "/login" → world s' = world s ∧ render s' = Wrapped).
Proof.
  intros s'.
  destruct (verifyToken_cases backend pathname s)
    as [[Hp Hs]|[(Hp & _ & Hs)|[(Hp & _ & _ & Hs)|(Hp & _ & _ & Hs)]]];
    subst s'; rewrite Hs; unfold render; simpl;
    split_and!; try (by left); try (by right); done.
Qed.

End GateExtras.

Section SessionCompositions.
Import JsString Auth Api WithAuth GateFacts Requests SessionFacts GateMore.

(** X17. Login and gate fit together: after a login the backend accepted
    with a non-empty access token, in a browser, the gate of a protected
    route finds that token and sends its identity check with it as bearer;
    if the backend confirms it, the content is shown. *)
Theorem login_then_gate
    (backend : Backend) (detail : AxiosError → option string)
    (p : LoginPage.Page) (t pathname : string) (ls : gmap string string) :
  LoginPage.username p ≠ "" → LoginPage.password p ≠ "" →
  window (env (LoginPage.world p)) = Some ls →
  t ≠ "" → pathname ≠ "/login" →
  backend (requestInterceptor (env (LoginPage.world p))
             (loginRequest (LoginPage.username p) (LoginPage.password p)))
    = Ok (TokenData t) →
  let w := LoginPage.world (LoginPage.handleSubmit backend detail p) in
  let s' := verifyToken backend pathname (mount w) in
  isAuthenticated (env w) = true ∧
  headers (requestInterceptor (env w) currentUserRequest) !! "Authorization"
    = Some ("Bearer " +:+ t) ∧
  sent (world s') = sent w ++ [requestInterceptor (env w) currentUserRequest] ∧
  (∀ payload, backend (requestInterceptor (env w) currentUserRequest) = Ok payload →
              render s' = Wrapped ∧ getToken (env (world s')) = Some t).
Proof.
  intros Hu Hp Hw Ht Hpath Hok w s'.
  assert (getToken (env w) = Some t) as Hg.
  { subst w. unfold LoginPage.handleSubmit.
    assert (negb (truthy (Some (LoginPage.username p)))
            || negb (truthy (Some (LoginPage.password p))) = false) as ->.
    { destruct (LoginPage.username p); [done|]. by destruct (LoginPage.password p). }
    unfold loginUser, api_post. rewrite request_spec.
    change (mkRequest POST "/token" _ None _)
      with (loginRequest (LoginPage.username p) (LoginPage.password p)).
    rewrite Hok. simpl. by rewrite getToken_setToken, Hw. }
  assert (isAuthenticated (env w) = true) as Ha
    by (apply isAuthenticated_token; by exists t).
  assert (headers (requestInterceptor (env w) currentUserRequest) !! "Authorization"
          = Some ("Bearer " +:+ t)) as Hh.
  { rewrite interceptor_header by done. rewrite Hg. by destruct t. }
  clearbody w.
  destruct (verifyToken_cases backend pathname (mount w))
    as [[? _]|[(_ & Hf & _)|[(_ & _ & (pl & Hpl) & Hs)|(_ & _ & (er & Her) & Hs)]]];
    [done|simpl in Hf; congruence| |]; subst s'; rewrite Hs; simpl.
  - split_and!; try done.
  - split_and!; try done. intros payload Hpay. simpl in Her. congruence.
Qed.

Lemma login_then_gate_witness :
  let p := LoginPage.mkPage "admin" "secret" false []
             (mkWorld (mkEnv (Some ∅)) [] []) in
  let backend : Backend :=
    λ r, if bool_decide (url r = "/token") then Ok (TokenData "jwt")
         else Ok (UserData 1 "admin") in
  let w := LoginPage.world (LoginPage.handleSubmit backend (λ _, None) p) in
  let s' := verifyToken backend "/ingestion" (mount w) in
  isAuthenticated (env w) = true ∧
  headers (requestInterceptor (env w) currentUserRequest) !! "Authorization"
    = Some ("Bearer " +:+ "jwt") ∧
  sent (world s') = sent w ++ [requestInterceptor (env w) currentUserRequest] ∧
  (∀ payload, backend (requestInterceptor (env w) currentUserRequest) = Ok payload →
              render s' = Wrapped ∧ getToken (env (world s')) = Some "jwt").
Proof.
  intros p backend.
  apply (login_then_gate backend (λ _, None) p "jwt" "/ingestion" ∅).
  - discriminate.
  - discriminate.
  - reflexivity.
  - discriminate.
  - discriminate.
  - reflexivity.
Defined.

(** X18. After [handleLogout] the session is over for every part of the
    client: the token is gone and "/login" is pushed without any request;
    a gate run on a protected route sends nothing and keeps the loading
    screen; and a request of any endpoint function leaves without an
    Authorization header. *)
Theorem logout_ends_session
    (backend : Backend) (w : World) (pathname : string) (ep : Endpoint) :
  pathname ≠ "/login" →
  let w' := Layout.handleLogout w in
  isAuthenticated (env w') = false ∧
  sent w' = sent w ∧
  pushed w' = pushed w ++ ["/login"] ∧
  sent (world (verifyToken backend pathname (mount w'))) = sent w ∧
  render (verifyToken backend pathname (mount w')) = Authenticating ∧
  ∃ config, sent (call backend ep w').2 = sent w ++ [config] ∧
            headers config !! "Authorization" = None.
Proof.
  intros Hp w'.
  assert (isAuthenticated (env w') = false) as Ha.
  { subst w'. unfold Layout.handleLogout, isAuthenticated. simpl.
    by rewrite getToken_removeToken. }
  split_and!; try done.
  - destruct (verifyToken_cases backend pathname (mount w'))
      as [[? _]|[(_ & _ & Hs)|[(_ & Ht & _)|(_ & Ht & _)]]];
      [done| |cbn [world mount] in Ht; congruence..].
    by rewrite Hs.
  - destruct (verifyToken_cases backend pathname (mount w'))
      as [[? _]|[(_ & _ & Hs)|[(_ & Ht & _)|(_ & Ht & _)]]];
      [done| |cbn [world mount] in Ht; congruence..].
    by rewrite Hs.
  - destruct (call_request backend ep w') as (config & Hc & ->).
    rewrite request_spec. simpl.
    exists (requestInterceptor (env w') config). split; [done|].
    rewrite interceptor_header by done.
    unfold isAuthenticated in Ha. cbv zeta in Ha.
    destruct (getToken (env w')) as [t|]; [|done]. by rewrite Ha.
Qed.

Lemma logout_ends_session_witness :
  let w := mkWorld (mkEnv (Some {["authToken" := "valid"]})) [] [] in
  let backend : Backend := λ _, Ok OpaqueData in
  let w' := Layout.handleLogout w in
  isAuthenticated (env w') = false ∧
  sent w' = sent w ∧
  pushed w' = pushed w ++ ["/login"] ∧
  sent (world (verifyToken backend "/" (mount w'))) = sent w ∧
  render (verifyToken backend "/" (mount w')) = Authenticating ∧
  ∃ config, sent (call backend GetIngestedSymbols w').2 = sent w ++ [config] ∧
            headers config !! "Authorization" = None.
Proof.
  intros w backend.
  apply (logout_ends_session backend w "/" GetIngestedSymbols).
  discriminate.
Defined.

End SessionCompositions.

(** ** From the modals to the request *)

Module PageFacts.
Import JsString Auth Api ReactQuery Hooks Requests GateFacts.

Lemma mutateAsync_setSymbols (backend : Backend) (symbols : list IngestedSymbol)
    (c : QueryClient) (w : World) :
  ∃ r c', mutateAsync (useSetSymbols backend) symbols c w
          = (r, c', mkWorld (env w)
                      (sent w ++ [requestInterceptor (env w) (setSymbolsRequest symbols)])
                      (pushed w)).
Proof.
  unfold mutateAsync. simpl. destruct (backend _); eauto.
Qed.

Lemma mutateAsync_addSymbol (backend : Backend) (symbol : IngestedSymbol)
    (c : QueryClient) (w : World) :
  ∃ r c', mutateAsync (useAddSymbol backend) symbol c w
          = (r, c', mkWorld (env w)
                      (sent w ++ [requestInterceptor (env w) (addSymbolRequest symbol)])
                      (pushed w)).
Proof.
  unfold mutateAsync. simpl. destruct (backend _); eauto.
Qed.

Lemma interceptor_preserves e config :
  method (requestInterceptor e config) = method config ∧
  url (requestInterceptor e config) = url config ∧
  params (requestInterceptor e config) = params config ∧
  data (requestInterceptor e config) = data config.
Proof.
  unfold requestInterceptor. cbv zeta.
  destruct (getToken e) as [t|]; [|done]. by destruct (truthy (Some t)).
Qed.

End PageFacts.

Section PageExtras.
Import JsString Auth Api ReactQuery Hooks Requests GateFacts PageFacts.
Import BulkUpload Ingestion IngestionFacts ReconcileMore.

(** X19. The upload button: when the content (the file if one was loaded,
    else the pasted text) holds no valid line, as when the button is
    disabled, nothing is sent and the modal keeps its input; otherwise the modal is cleared and exactly one request
    leaves, the replacement of the ingestion list by the merge of the
    current list and the parsed symbols, with no two entries for the same
    (symbol, exchange). While the current list is not loaded, that body
    holds entries of the upload only. *)
Theorem bulk_upload_sends_one_unique_list
    (backend : Backend) (m : BulkUploadModal.Modal)
    (ingestedSymbols : option (list IngestedSymbol)) (c : QueryClient) (w : World) :
  let content :=
    if truthy (Some (BulkUploadModal.fileContent m))
    then BulkUploadModal.fileContent m else BulkUploadModal.textInput m in
  (BulkUploadModal.uploadDisabled m = true →
   IngestionPage.submitBulkUpload backend m ingestedSymbols c w = (m, None)) ∧
  match IngestionPage.submitBulkUpload backend m ingestedSymbols c w with
  | (m', None) => parseSymbols content = [] ∧ m' = m
  | (m', Some (_, _, w')) =>
      let body := handleBulkUpload ingestedSymbols (parseSymbols content) in
      parseSymbols content ≠ [] ∧
      m' = BulkUploadModal.mkModal "" "" ∧
      sent w' = sent w ++ [requestInterceptor (env w) (setSymbolsRequest body)] ∧
      env w' = env w ∧ pushed w' = pushed w ∧
      NoDup (map identity body) ∧
      (ingestedSymbols = None → ∀ e, e ∈ body → e ∈ parseSymbols content)
  end.
Proof.
  intros content. split.
  { unfold BulkUploadModal.uploadDisabled. intros Hd.
    apply andb_true_iff in Hd as [Hf Ht].
    unfold IngestionPage.submitBulkUpload, BulkUploadModal.handleSubmit. cbv zeta.
    destruct (BulkUploadModal.fileContent m); [|done].
    by destruct (BulkUploadModal.textInput m). }
  unfold IngestionPage.submitBulkUpload, BulkUploadModal.handleSubmit. cbv zeta.
  fold content. destruct (parseSymbols content) as [|e l] eqn:Hparse; simpl; [done|].
  unfold IngestionPage.handleBulkUpload, IngestionPage.handleSetSymbols.
  destruct (mutateAsync_setSymbols backend
              (handleBulkUpload ingestedSymbols (e :: l)) c w) as (r & c' & ->).
  simpl. split_and!; try done.
  - rewrite handleBulkUpload_eq. apply NoDup_identity.
  - intros -> x Hx. rewrite handleBulkUpload_eq in Hx. simpl in Hx.
    by apply uniqueSymbols_subset in Hx.
Qed.

(** X20. The submit button of the add form: with the symbol or the exchange
    empty nothing is sent and the form keeps its input; otherwise the form
    is cleared and exactly one request leaves, the replacement of the
    ingestion list by the current list merged with the entry typed, whose
    symbol is upper-cased, whose exchange is taken as typed, and which has
    no description and no security type. *)
Theorem manual_add_sends_one_unique_list
    (backend : Backend) (f : AddSymbolModal.Form)
    (ingestedSymbols : option (list IngestedSymbol)) (c : QueryClient) (w : World) :
  match IngestionPage.submitAddSymbol backend f ingestedSymbols c w with
  | (f', None) =>
      (AddSymbolModal.symbolInput f = "" ∨ AddSymbolModal.exchangeInput f = "") ∧ f' = f
  | (f', Some (_, _, w')) =>
      let entry := mkSymbol (toUpperCase (AddSymbolModal.symbolInput f))
                     (AddSymbolModal.exchangeInput f) None None in
      let body := handleAddSymbol ingestedSymbols entry in
      AddSymbolModal.symbolInput f ≠ "" ∧ AddSymbolModal.exchangeInput f ≠ "" ∧
      f' = AddSymbolModal.mkForm "" "" ∧
      sent w' = sent w ++ [requestInterceptor (env w) (setSymbolsRequest body)] ∧
      env w' = env w ∧ pushed w' = pushed w ∧
      NoDup (map identity body) ∧ entry ∈ body
  end.
Proof.
  unfold IngestionPage.submitAddSymbol, AddSymbolModal.handleSubmit.
  destruct (AddSymbolModal.symbolInput f) as [|a s] eqn:Hs; simpl;
    [split; [by left|done]|].
  destruct (AddSymbolModal.exchangeInput f) as [|b x] eqn:Hx; simpl;
    [split; [by right|done]|].
  unfold IngestionPage.handleAddSymbol, IngestionPage.handleSetSymbols.
  match goal with
  | |- context [mutateAsync _ ?l _ _] =>
      destruct (mutateAsync_setSymbols backend l c w) as (r & c' & ->)
  end.
  simpl. split_and!; try done.
  - rewrite handleAddSymbol_eq. apply NoDup_identity.
  - rewrite handleAddSymbol_eq. apply elem_of_uniqueSymbols.
    exists (default [] ingestedSymbols), []. split; [done|apply Forall_nil_2].
Qed.

(** X21. Adding by hand a symbol that is already in the (duplicate-free)
    list sends the list with that entry replaced where it stood by one
    without description and security type: what was known about the symbol
    is dropped from the list sent. *)
Theorem manual_add_of_existing_symbol_drops_description
    (backend : Backend) (f : AddSymbolModal.Form)
    (pre post : list IngestedSymbol) (x : IngestedSymbol)
    (c : QueryClient) (w : World) :
  NoDup (map symbolKey (pre ++ x :: post)) →
  symbol x ≠ "" → exchange x ≠ "" →
  toUpperCase (AddSymbolModal.symbolInput f) = symbol x →
  AddSymbolModal.exchangeInput f = exchange x →
  ∃ r c',
    IngestionPage.submitAddSymbol backend f (Some (pre ++ x :: post)) c w
    = (AddSymbolModal.mkForm "" "",
       Some (r, c',
             mkWorld (env w)
               (sent w ++ [requestInterceptor (env w)
                  (setSymbolsRequest
                     (pre ++ mkSymbol (symbol x) (exchange x) None None :: post))])
               (pushed w))).
Proof.
  intros Hnd Hsx Hex Hs He.
  unfold IngestionPage.submitAddSymbol, AddSymbolModal.handleSubmit.
  assert (truthy (Some (AddSymbolModal.symbolInput f))
          && truthy (Some (AddSymbolModal.exchangeInput f)) = true) as ->.
  { rewrite He. destruct (AddSymbolModal.symbolInput f); [by simpl in Hs|].
    by destruct (exchange x). }
  rewrite Hs, He.
  unfold IngestionPage.handleAddSymbol, IngestionPage.handleSetSymbols.
  rewrite (add_existing_symbol_replaces_in_place_aux pre post x
             (mkSymbol (symbol x) (exchange x) None None)) by done.
  destruct (mutateAsync_setSymbols backend
              (pre ++ mkSymbol (symbol x) (exchange x) None None :: post) c w)
    as (r & c' & ->).
  by exists r, c'.
Qed.

Lemma manual_add_of_existing_symbol_drops_description_witness :
  let x := mkSymbol "AAPL" "NASDAQ" (Some "Apple Inc.") (Some "STOCK") in
  let w := mkWorld (mkEnv (Some ∅)) [] [] in
  ∃ r c',
    IngestionPage.submitAddSymbol (λ _, Ok OpaqueData)
      (AddSymbolModal.mkForm "aapl" "NASDAQ") (Some ([] ++ x :: [])) ∅ w
    = (AddSymbolModal.mkForm "" "",
       Some (r, c',
             mkWorld (env w)
               (sent w ++ [requestInterceptor (env w)
                  (setSymbolsRequest
                     ([] ++ mkSymbol (symbol x) (exchange x) None None :: []))])
               (pushed w))).
Proof.
  intros x w.
  apply (manual_add_of_existing_symbol_drops_description (λ _, Ok OpaqueData)
           (AddSymbolModal.mkForm "aapl" "NASDAQ") [] [] x ∅ w).
  - apply NoDup_singleton.
  - discriminate.
  - discriminate.
  - reflexivity.
  - reflexivity.
Defined.

End PageExtras.

(** ** Search results table *)

Section TableExtras.
Import JsString Auth Api ReactQuery Hooks Requests GateFacts PageFacts CleanFacts.
Import SymbolTable.

(** X22. Pressing the add button of a row marks the row as added whatever
    the backend answers, also when the request fails: the request for the
    row's four fields is sent, and afterwards the row and every row with
    the same symbol-exchange key is shown as added; rows marked before stay
    marked, and no other row becomes marked. *)
Theorem add_button_marks_row_whatever_the_outcome
    (backend : Backend) (item : IngestedSymbol) (addedSymbols : gset string)
    (c : QueryClient) (w : World) :
  let out := handleAddSymbol backend item addedSymbols c w in
  sent out.2.2 = sent w ++ [requestInterceptor (env w) (addSymbolRequest item)] ∧
  isAdded out.1 item = true ∧
  (∀ other, isAdded out.1 other = true
            ↔ isAdded addedSymbols other = true ∨ rowKey other = rowKey item) ∧
  isAdded out.1 (mkSymbol "A-B" "C" None None)
  = isAdded out.1 (mkSymbol "A" "B-C" None None).
Proof.
  intros out. subst out. unfold handleAddSymbol. cbv zeta.
  replace (mkSymbol (symbol item) (exchange item) (description item) (securityType item))
    with item by (by destruct item).
  destruct (mutateAsync_addSymbol backend item c w) as (r & c' & ->). simpl.
  split_and!.
  - done.
  - unfold isAdded. apply bool_decide_eq_true.
    apply elem_of_union. left. by apply elem_of_singleton.
  - intros other. unfold isAdded.
    rewrite !bool_decide_eq_true, elem_of_union, elem_of_singleton. tauto.
  - reflexivity.
Qed.

(** X23. The colour of a security type does not depend on the case of the
    letters: it is the green style for "stock", the orange style for
    "futures", in any mix of upper and lower case, and the grey default for
    every other type, the empty one and a missing one. *)
Theorem security_type_colour_ignores_case (type : string) :
  getSecurityTypeColor (Some (toUpperCase type)) = getSecurityTypeColor (Some type) ∧
  getSecurityTypeColor (Some type) =
    (if decide (toUpperCase type = "STOCK")
     then "bg-green-900/50 text-green-300 border border-green-700"
     else if decide (toUpperCase type = "FUTURES")
     then "bg-orange-900/50 text-orange-300 border border-orange-700"
     else "bg-slate-700 text-slate-300") ∧
  getSecurityTypeColor None = "bg-slate-700 text-slate-300" ∧
  getSecurityTypeColor (Some "Stock") = getSecurityTypeColor (Some "STOCK").
Proof.
  assert (∀ t, getSecurityTypeColor (Some t) =
    (if decide (toUpperCase t = "STOCK")
     then "bg-green-900/50 text-green-300 border border-green-700"
     else if decide (toUpperCase t = "FUTURES")
     then "bg-orange-900/50 text-orange-300 border border-orange-700"
     else "bg-slate-700 text-slate-300")) as Hchar.
  { intros t. unfold getSecurityTypeColor. destruct t as [|a t]; [reflexivity|].
    cbn [truthy negb]. cbv zeta.
    change (default "" (Some (String a t))) with (String a t).
    generalize (toUpperCase (String a t)). intros u.
    destruct (decide (u = "STOCK")) as [->|Hs]; [reflexivity|].
    destruct (decide (u = "FUTURES")) as [->|Hf]; [reflexivity|].
    assert (securityTypeColors !! u = None) as ->; [|reflexivity].
    unfold securityTypeColors. rewrite lookup_insert_ne by done.
    by rewrite lookup_singleton_ne. }
  split_and!.
  - by rewrite !Hchar, toUpperCase_idem.
  - apply Hchar.
  - reflexivity.
  - reflexivity.
Qed.

End TableExtras.

(** ** Cookie token store *)

Section CookieExtras.
Import JsString AuthSecure.

(** X24. The cookie store gives back a non-empty token: after [setToken],
    [getToken] is the token stored, or nothing when the token stored is the
    empty text, and the store counts as authenticated exactly when the
    token is not empty. The refresh token is written only when one is
    given and not empty; otherwise the refresh token stored before stays
    readable. Both cookies are HTTP-only, same-site strict, and the refresh
    cookie lives 30 days against 7 for the token. *)
Theorem cookie_store_round_trip
    (production : bool) (token : string) (refreshToken : option string)
    (cookieStore : gmap string Cookie) :
  let after := setToken production token refreshToken cookieStore in
  getToken after = (if decide (token = "") then None else Some token) ∧
  (isAuthenticated after = true ↔ token ≠ "") ∧
  getRefreshToken after
    = (if truthy refreshToken then refreshToken else getRefreshToken cookieStore) ∧
  after !! TOKEN_KEY
    = Some (mkCookie token (mkOptions true production "strict" 604800%N "/")) ∧
  (∀ r, refreshToken = Some r → r ≠ "" →
        after !! REFRESH_TOKEN_KEY
        = Some (mkCookie r (mkOptions true production "strict" 2592000%N "/"))) ∧
  (∀ k, k ≠ TOKEN_KEY → k ≠ REFRESH_TOKEN_KEY → after !! k = cookieStore !! k).
Proof.
  intros after.
  assert (after !! TOKEN_KEY
          = Some (mkCookie token (mkOptions true production "strict" 604800%N "/"))) as Ht.
  { subst after. unfold setToken. cbv zeta. destruct (truthy refreshToken).
    - rewrite lookup_insert_ne by done. apply lookup_insert_eq.
    - apply lookup_insert_eq. }
  assert (getToken after = (if decide (token = "") then None else Some token)) as Hg.
  { unfold getToken, getValue. cbv zeta. rewrite Ht. simpl. by destruct token. }
  split_and!; try done.
  - unfold isAuthenticated. cbv zeta. rewrite Hg. by destruct token.
  - subst after. unfold getRefreshToken, getValue, setToken. cbv zeta.
    destruct refreshToken as [[|a r]|]; simpl.
    + by rewrite lookup_insert_ne.
    + by rewrite lookup_insert_eq.
    + by rewrite lookup_insert_ne.
  - intros r -> Hr. subst after. unfold setToken. cbv zeta.
    destruct r as [|a r]; [done|]. simpl. apply lookup_insert_eq.
  - intros k Hk Hk'. subst after. unfold setToken. cbv zeta.
    destruct (truthy refreshToken).
    + by rewrite !lookup_insert_ne.
    + by rewrite lookup_insert_ne.
Qed.

(** X25. [removeToken] of the cookie store removes the token and the
    refresh token and nothing else: afterwards neither can be read, the
    store does not count as authenticated, and every other cookie is as it
    was. Storing a token again after that makes it readable again. *)
Theorem cookie_store_remove
    (production : bool) (token : string) (cookieStore : gmap string Cookie) :
  getToken (removeToken cookieStore) = None ∧
  getRefreshToken (removeToken cookieStore) = None ∧
  isAuthenticated (removeToken cookieStore) = false ∧
  (∀ k, k ≠ TOKEN_KEY → k ≠ REFRESH_TOKEN_KEY →
        removeToken cookieStore !! k = cookieStore !! k) ∧
  getRefreshToken (setToken production token None (removeToken cookieStore)) = None ∧
  getToken (setToken production token None (removeToken cookieStore))
    = (if decide (token = "") then None else Some token).
Proof.
  assert (removeToken cookieStore !! TOKEN_KEY = None) as Ht.
  { unfold removeToken. rewrite lookup_delete_ne by done. apply lookup_delete_eq. }
  assert (removeToken cookieStore !! REFRESH_TOKEN_KEY = None) as Hr.
  { unfold removeToken. apply lookup_delete_eq. }
  split_and!.
  - unfold getToken, getValue. cbv zeta. by rewrite Ht.
  - unfold getRefreshToken, getValue. cbv zeta. by rewrite Hr.
  - unfold isAuthenticated, getToken, getValue. cbv zeta. by rewrite Ht.
  - intros k Hk Hk'. unfold removeToken. by rewrite !lookup_delete_ne.
  - unfold getRefreshToken, getValue, setToken. cbv zeta. simpl.
    rewrite lookup_insert_ne by done. by rewrite Hr.
  - unfold getToken, getValue, setToken. cbv zeta. simpl.
    rewrite lookup_insert_eq. simpl. by destruct token.
Qed.

End CookieExtras.

(** ** Runs of the search component *)

Module RunFacts.
Import Api ReactQuery Hooks SymbolSearch SearchFacts Requests PageFacts SearchRuns.

(** A read of the search query sends nothing, or one search for a text of
    more than two characters. *)
Lemma read_search_sends (backend : Backend) (c : Component) :
  ∃ new, sent (read (query backend c) (cache c) (world c)).2 = sent (world c) ++ new
         ∧ Forall longSearch new.
Proof.
  unfold read. destruct (fetches (query backend c) (cache c)) eqn:Hf.
  - assert (searchEnabled c = true) as He.
    { unfold fetches in Hf. by apply andb_true_iff in Hf as [He _]. }
    simpl.
    set (config := mkRequest GET "/search_symbols/" ∅ _ NoBody).
    exists [requestInterceptor (env (world c)) config]. split.
    + by destruct (backend _).
    + apply Forall_cons. split; [|done].
      destruct (interceptor_preserves (env (world c)) config) as (Hm & Hu & Hp & _).
      unfold longSearch. rewrite Hm, Hu, Hp. split_and!; try done.
      eexists _, _. split_and!; [reflexivity..|].
      simpl. unfold searchEnabled in He. by apply Nat.ltb_lt in He.
  - exists []. split; [by rewrite app_nil_r|done].
Qed.

Lemma rerender_sends (backend : Backend) (before after : Component) :
  ∃ new, sent (world (rerender backend before after)) = sent (world after) ++ new
         ∧ Forall longSearch new.
Proof.
  unfold rerender. cbv zeta. case_decide.
  - exists []. split; [by rewrite app_nil_r|done].
  - match goal with
    | |- context [read (query backend ?a) _ _] =>
        destruct (read_search_sends backend a) as (new & Hs & Hn)
    end.
    simpl in Hs. destruct (read _ _ _) as [[? c'] w']. simpl in *.
    by exists new.
Qed.

Lemma step_sends (backend : Backend) (ev : Event) (c : Component) :
  ∃ new, sent (world (step backend ev c)) = sent (world c) ++ new
         ∧ Forall longSearch new.
Proof.
  destruct ev; simpl;
    match goal with
    | |- context [rerender ?be ?b ?a] => exact (rerender_sends be b a)
    end.
Qed.

End RunFacts.

Section SearchExtras.
Import Api ReactQuery Hooks SymbolSearch SearchFacts Requests PageFacts SearchRuns RunFacts.

(** X26. Whatever is typed, chosen and waited, in whatever order, the
    search component only ever sends searches for a text of more than two
    characters: the requests a session adds are all GETs of the search
    endpoint with such a text. *)
Theorem search_never_sends_short_text
    (backend : Backend) (events : list Event) (c : Component) :
  ∃ new, sent (world (run backend events c)) = sent (world c) ++ new
         ∧ Forall longSearch new.
Proof.
  revert c. induction events as [|ev events IH]; intros c.
  - exists []. split; [by rewrite app_nil_r|done].
  - unfold run. simpl. fold (run backend events (step backend ev c)).
    destruct (step_sends backend ev c) as (new1 & Hs1 & Hn1).
    destruct (IH (step backend ev c)) as (new2 & Hs2 & Hn2).
    exists (new1 ++ new2). split.
    + by rewrite Hs2, Hs1, app_assoc.
    + by apply Forall_app.
Qed.

(** X27. The filters are not debounced: with a debounced text of more than
    two characters on screen, choosing another exchange sends the search
    with the new exchange at once (if that search is not in the cache),
    without any wait. *)
Theorem exchange_filter_searches_at_once
    (backend : Backend) (c : Component) (v : string) :
  (2 < String.length (debouncedSearchString c))%nat →
  v ≠ exchange c →
  cache c !! [KString "symbols";
              KParams (SearchParams.mk (Some (debouncedSearchString c)) (Some v)
                                       (Some (securityType c)))] = None →
  let c' := step backend (SetExchange v) c in
  now c' = now c ∧
  sent (world c') = sent (world c) ++
    [requestInterceptor (env (world c))
       (searchRequest (SearchParams.mk (Some (debouncedSearchString c)) (Some v)
                                       (Some (securityType c))))].
Proof.
  intros Hlen Hv Hmiss c'. subst c'. simpl. unfold rerender. cbv zeta.
  rewrite decide_False.
  2:{ intros [Hk _]. simpl in Hk. injection Hk as _ Hk. by apply Hv. }
  unfold read, fetches. simpl.
  unfold searchEnabled, debouncedSearchString in *. simpl.
  rewrite render_state, Hmiss.
  rewrite (proj2 (Nat.ltb_lt _ _) Hlen). simpl.
  by destruct (backend _).
Qed.

Lemma exchange_filter_searches_at_once_witness :
  let c := mk 0 "AAPL" "" "" (UseDebounce.mk "AAPL" "AAPL" None) ∅
             (mkWorld (Auth.mkEnv (Some ∅)) [] []) in
  let c' := step (λ _, Ok (SymbolsData [])) (SetExchange "NYSE") c in
  now c' = now c ∧
  sent (world c') = sent (world c) ++
    [requestInterceptor (env (world c))
       (searchRequest (SearchParams.mk (Some (debouncedSearchString c)) (Some "NYSE")
                                       (Some (securityType c))))].
Proof.
  intros c.
  apply (exchange_filter_searches_at_once (λ _, Ok (SymbolsData [])) c "NYSE").
  - vm_compute. lia.
  - discriminate.
  - reflexivity.
Defined.

End SearchExtras.
